(** * ReSub [ComponentBase]: automatic store subscriptions

    A shallow embedding of [src/ComponentBase.ts].  Subscription objects are
    shared between the component's registry and the stores, so they live in a
    heap and the registry [_handledAutoSubscriptions] is an array of
    references into it.  Calls that leave the class (store registration,
    the build function, the comparator, [setState], instrumentation) are
    recorded in a log, in the order in which they happen. *)

From stdpp Require Import base list strings.

(** ** Data *)

(** A store object: its identity as an object and its [storeId]. *)
Record StoreBase := { storeObj : nat; storeId : string }.

#[global] Instance StoreBase_eq_dec : EqDecision StoreBase.
Proof. solve_decision. Defined.

(** The one callback a component hands out: [this._onAutoSubscriptionChanged]. *)
Inductive Callback := OnAutoSubscriptionChanged.

(** [AutoSubscription] as [_handleAutoSubscribe] builds it.  A subscription
    object is referred to by its index in the heap. *)
Record AutoSubscription := {
  store : StoreBase;
  key : string;
  callback : Callback;
  used : bool
}.

(** [subscription.used = u] *)
Definition set_used (u : bool) (sub : AutoSubscription) : AutoSubscription :=
  {| store := store sub; key := key sub; callback := callback sub; used := u |}.

(** How an invocation ends. *)
Inductive Completion (E A : Type) :=
| Normal (a : A)
| Throw (e : E).
Arguments Normal {E A} a.
Arguments Throw {E A} e.

(** What can be thrown: the [Error] of [getDerivedStateFromProps], or
    whatever the build function throws. *)
Inductive Exception (T : Type) :=
| Error (message : string)
| Thrown (t : T).
Arguments Error {T} message.
Arguments Thrown {T} t.

Section ComponentBase.

Context {Props Value T : Type}.

(** [StoreBase.Key_All], the reserved key meaning "any key on this store".
    StoreBase.ts is not part of the sources, so the constant is a parameter. *)
Variable Key_All : string.

(** [Options.shouldComponentUpdateComparator], the configured equality, here
    on props.  Options.ts is not part of the sources, so it is a parameter. *)
Variable shouldComponentUpdateComparator : Props → Props → bool.

(** Whether [Instrumentation.impl] is set; its two hooks only observe. *)
Variable Instrumentation_impl : bool.

(** A state object ([Dictionary<any>]): its own enumerable keys, in order. *)
Definition Dictionary : Type := list (string * Value).

(** One invocation of the component's [_buildState]: the store reads it
    performs, each delivered to the auto-subscribe handler while the method
    decorated with [enableAutoSubscribe] runs, and then how it ends. *)
Record BuildRun := {
  reads : list (StoreBase * string);
  finish : Completion (Exception T) (option Dictionary)
}.

(** The virtual method [_buildState(props, initialBuild)]. *)
Definition BuildState : Type := Props → bool → BuildRun.

(** [ComponentBase._buildState]: no store is read, [undefined] is returned. *)
Definition _buildState : BuildState :=
  λ _ _, {| reads := []; finish := Normal None |}.

(** Calls that leave the class. *)
Inductive Event :=
| trackAutoSubscription (st : StoreBase) (sub : nat)
| removeAutoSubscription (st : StoreBase) (sub : nat)
| beginBuildState
| endBuildState
| buildState (p : Props) (initialBuild : bool)
| comparator (a b : Props)
| setState (s : Dictionary).

(** The component instance together with the subscription objects. *)
Record World := {
  heap : list AutoSubscription;
  _handledAutoSubscriptions : list nat;
  _isMounted : bool;
  props : Props;
  log : list Event
}.

Definition with_heap (h : list AutoSubscription) (w : World) : World :=
  {| heap := h; _handledAutoSubscriptions := _handledAutoSubscriptions w;
     _isMounted := _isMounted w; props := props w; log := log w |}.

Definition with_subscriptions (l : list nat) (w : World) : World :=
  {| heap := heap w; _handledAutoSubscriptions := l;
     _isMounted := _isMounted w; props := props w; log := log w |}.

Definition with_mounted (b : bool) (w : World) : World :=
  {| heap := heap w; _handledAutoSubscriptions := _handledAutoSubscriptions w;
     _isMounted := b; props := props w; log := log w |}.

Definition with_props (p : Props) (w : World) : World :=
  {| heap := heap w; _handledAutoSubscriptions := _handledAutoSubscriptions w;
     _isMounted := _isMounted w; props := p; log := log w |}.

Definition emit (e : Event) (w : World) : World :=
  {| heap := heap w; _handledAutoSubscriptions := _handledAutoSubscriptions w;
     _isMounted := _isMounted w; props := props w; log := log w ++ [e] |}.

(** ** Methods that may throw *)

(** A method runs on the instance and returns or throws; the instance is
    kept as the method left it in both cases. *)
Definition M (A : Type) : Type := World → Completion (Exception T) A * World.

Definition ret {A} (a : A) : M A := λ w, (Normal a, w).
Definition throw {A} (e : Exception T) : M A := λ w, (Throw e, w).
Definition bind {A B} (m : M A) (k : A → M B) : M B :=
  λ w, match m w with
       | (Normal a, w') => k a w'
       | (Throw e, w') => (Throw e, w')
       end.
Definition get : M World := λ w, (Normal w, w).
Definition modify (f : World → World) : M unit := λ w, (Normal tt, f w).

Notation "x ←' m ;; k" := (bind m (λ x, k))
  (at level 100, m at next level, right associativity).
Notation "m ;;' k" := (bind m (λ _, k))
  (at level 100, right associativity).

(** ** Helpers from utils.ts *)

(** Modelled from the spec: [find] of utils.ts is not part of the sources;
    the registry search returns the first element satisfying the predicate,
    [undefined] if there is none. *)
Fixpoint utils_find {A} (array : list A) (predicate : A → bool) : option A :=
  match array with
  | [] => None
  | x :: rest => if predicate x then Some x else utils_find rest predicate
  end.

(** Modelled from the spec: [remove] of utils.ts is not part of the sources;
    the sweep visits the array in registry order, runs the predicate (which
    may call into a store) on each element, and drops those it accepts. *)
Fixpoint utils_remove (array : list nat) (predicate : nat → World → bool * World)
    (w : World) : list nat * World :=
  match array with
  | [] => ([], w)
  | x :: rest =>
      let '(b, w1) := predicate x w in
      let '(rest', w2) := utils_remove rest predicate w1 in
      (if b then rest' else x :: rest', w2)
  end.

(** ** The class *)

(** The test of [_findMatchingAutoSubscription] on one subscription. *)
Definition matching (st : StoreBase) (k : string) (sub : AutoSubscription) : bool :=
  bool_decide (storeId (store sub) = storeId st) &&
  (bool_decide (key sub = k) || bool_decide (key sub = Key_All)).

(** The same test through a reference; every reference held by the
    registry points to an object, so the second case is not reached. *)
Definition matching_ref (h : list AutoSubscription) (st : StoreBase) (k : string)
    (r : nat) : bool :=
  match h !! r with
  | Some sub => matching st k sub
  | None => false
  end.

Definition _findMatchingAutoSubscription (st : StoreBase) (k : string) (w : World)
    : option nat :=
  utils_find (_handledAutoSubscriptions w) (matching_ref (heap w) st k).

Definition _handleAutoSubscribe (st : StoreBase) (k : string) (w : World) : World :=
  match _findMatchingAutoSubscription st k w with
  | Some autoSubscription =>
      with_heap (alter (set_used true) autoSubscription (heap w)) w
  | None =>
      let subscription :=
        {| store := st; key := k; callback := OnAutoSubscriptionChanged; used := true |} in
      let r := length (heap w) in
      emit (trackAutoSubscription st r)
        (with_subscriptions (_handledAutoSubscriptions w ++ [r])
           (with_heap (heap w ++ [subscription]) w))
  end.

(** Modelled from the spec: [enableAutoSubscribe] is declared in
    AutoSubscriptions.ts, which is not part of the sources.  While the
    decorated method runs, every store read is delivered at once to the
    handler given to the decorator; an exception of the method passes
    through.  This is [_autoSubscribeHandler.handle], called once per
    intercepted read. *)
Definition handle (w : World) (read : StoreBase * string) : World :=
  _handleAutoSubscribe read.1 read.2 w.

(** [this._handledAutoSubscriptions.forEach(sub => { sub.used = false; })] *)
Definition reset_used (w : World) : World :=
  with_heap (foldl (λ h r, alter (set_used false) r h) (heap w)
               (_handledAutoSubscriptions w)) w.

Definition _shouldRemoveAndCleanupAutoSubscription (sub : AutoSubscription) : bool :=
  negb (used sub).

(** The predicate handed to [remove] by the sweep. *)
Definition sweep_predicate (r : nat) (w : World) : bool * World :=
  match heap w !! r with
  | Some subscription =>
      if _shouldRemoveAndCleanupAutoSubscription subscription
      then (true, emit (removeAutoSubscription (store subscription) r) w)
      else (false, w)
  | None => (false, w)
  end.

Definition sweep (w : World) : World :=
  let '(kept, w') := utils_remove (_handledAutoSubscriptions w) sweep_predicate w in
  with_subscriptions kept w'.

Definition instrument (e : Event) (w : World) : World :=
  if Instrumentation_impl then emit e w else w.

Definition _buildStateWithAutoSubscriptions (build : BuildState) (p : Props)
    (initialBuild : bool) : M (option Dictionary) :=
  modify reset_used ;;'
  modify (instrument beginBuildState) ;;'
  modify (emit (buildState p initialBuild)) ;;'
  let run := build p initialBuild in
  modify (λ w, foldl handle w (reads run)) ;;'
  state ←' (λ w, (finish run, w)) ;;
  modify (instrument endBuildState) ;;'
  modify sweep ;;'
  ret state.

(** [newState && Object.keys(newState).length] *)
Definition nonempty (newState : option Dictionary) : bool :=
  match newState with
  | Some (_ :: _) => true
  | _ => false
  end.

Definition _handleUpdate (build : BuildState) (nextProps : Props)
    : M (option Dictionary) :=
  w ←' get ;;
  modify (emit (comparator (props w) nextProps)) ;;'
  if negb (shouldComponentUpdateComparator (props w) nextProps) then
    newState ←' _buildStateWithAutoSubscriptions build nextProps false ;;
    if nonempty newState then ret newState else ret None
  else ret None.

Definition componentWillUnmount (w : World) : World :=
  let w1 :=
    foldl (λ w r,
             match heap w !! r with
             | Some subscription =>
                 emit (removeAutoSubscription (store subscription) r)
                   (with_heap (alter (set_used false) r (heap w)) w)
             | None => w
             end) w (_handledAutoSubscriptions w) in
  with_mounted false (with_subscriptions [] w1).

Definition isComponentMounted (w : World) : bool := _isMounted w.

Definition _onAutoSubscriptionChangedUnbound (build : BuildState) : M unit :=
  that ←' get ;;
  if negb (isComponentMounted that) then ret tt
  else
    newState ←' _buildStateWithAutoSubscriptions build (props that) false ;;
    if nonempty newState then
      match newState with
      | Some s => modify (emit (setState s))
      | None => ret tt
      end
    else ret tt.

Definition _onAutoSubscriptionChanged (build : BuildState) : M unit :=
  _onAutoSubscriptionChangedUnbound build.

(** [this._buildStateWithAutoSubscriptions(this.props, true) || {}] *)
Definition _buildInitialState (build : BuildState) : M Dictionary :=
  w ←' get ;;
  initialState ←' _buildStateWithAutoSubscriptions build (props w) true ;;
  ret (default [] initialState).

(** [prevState] is either missing or carries [_getInstance], which yields
    the instance or nothing. *)
Definition getDerivedStateFromProps (build : BuildState) (nextProps : Props)
    (prevState : option (option unit)) : M (option Dictionary) :=
  match prevState with
  | Some (Some _) =>
      instance ←' get ;;
      if negb (_isMounted instance) then
        s ←' _buildInitialState build ;; ret (Some s)
      else _handleUpdate build nextProps
  | _ => throw (Error "couldn't get instance of Component")
  end.

Definition componentDidMount (w : World) : World := with_mounted true w.

(** The instance as the constructor leaves it: no subscription object
    exists yet, the registry is empty, the component is not mounted. *)
Definition constructor (p : Props) : World :=
  {| heap := []; _handledAutoSubscriptions := []; _isMounted := false;
     props := p; log := [] |}.

(** ** The store side *)

(** Modelled from the spec: [trackAutoSubscription] and
    [removeAutoSubscription] are methods of StoreBase.ts, which is not part
    of the sources.  A store keeps an index of the subscription handles
    registered with it; registration adds the handle, removal deletes it. *)
Definition index_step (st : StoreBase) (index : list nat) (e : Event) : list nat :=
  match e with
  | trackAutoSubscription st' r => if decide (st' = st) then index ++ [r] else index
  | removeAutoSubscription st' r =>
      if decide (st' = st) then filter (λ r', r' ≠ r) index else index
  | _ => index
  end.

Definition store_index (st : StoreBase) (l : list Event) : list nat :=
  foldl (index_step st) [] l.

(** ** The host's lifecycle *)

(** What React, or a store, can do with a constructed component. *)
Inductive Lifecycle :=
| GetDerivedStateFromProps (build : BuildState) (nextProps : Props)
| ComponentDidMount
| ComponentWillUnmount
| StoreNotification (build : BuildState)
| AssignProps (p : Props).

(** One lifecycle event; an exception goes to the host and the instance
    stays as the faulting call left it. *)
Definition step (w : World) (ev : Lifecycle) : World :=
  match ev with
  | GetDerivedStateFromProps build nextProps =>
      (getDerivedStateFromProps build nextProps (Some (Some tt)) w).2
  | ComponentDidMount => componentDidMount w
  | ComponentWillUnmount => componentWillUnmount w
  | StoreNotification build => (_onAutoSubscriptionChanged build w).2
  | AssignProps p => with_props p w
  end.

Definition lifecycle (evs : list Lifecycle) (w : World) : World := foldl step w evs.

(** ** Vocabulary of the properties *)

(** The dependency a subscription stands for. *)
Definition pair_of (sub : AutoSubscription) : string * string :=
  (storeId (store sub), key sub).

(** The fields of a subscription that are never assigned after creation. *)
Definition static (sub : AutoSubscription) : StoreBase * string * Callback :=
  (store sub, key sub, callback sub).

Definition is_used (h : list AutoSubscription) (r : nat) : bool :=
  match h !! r with
  | Some sub => used sub
  | None => false
  end.

(** The (storeId, key) pairs of the registry, in registry order. *)
Definition pairs_of (h : list AutoSubscription) (l : list nat) : list (string * string) :=
  omap (λ r, pair_of <$> h !! r) l.

Definition pairs (w : World) : list (string * string) :=
  pairs_of (heap w) (_handledAutoSubscriptions w).

(** Every reference of the registry points to an object. *)
Definition valid (w : World) : Prop :=
  Forall (λ r, r < length (heap w)) (_handledAutoSubscriptions w).

(** The state of a component between two builds: valid references and one
    subscription per (storeId, key). *)
Definition wf (w : World) : Prop := valid w ∧ NoDup (pairs w).

(** The first subscription of the registry that matches a read. *)
Definition first_match (w : World) (read : StoreBase * string) : option nat :=
  _findMatchingAutoSubscription read.1 read.2 w.

(** The store calls made for a list of subscriptions. *)
Definition track_at (h : list AutoSubscription) (r : nat) : option Event :=
  (λ sub, trackAutoSubscription (store sub) r) <$> h !! r.

Definition remove_at (h : list AutoSubscription) (r : nat) : option Event :=
  (λ sub, removeAutoSubscription (store sub) r) <$> h !! r.

(** [w'] is [w] after some reads were handled: objects were only added and
    only their [used] field was assigned; the registry and the log grew by
    the new subscriptions and their registrations. *)
Definition extends (w w' : World) : Prop :=
  static <$> heap w `prefix_of` static <$> heap w' ∧
  _isMounted w' = _isMounted w ∧ props w' = props w ∧
  ∃ news, _handledAutoSubscriptions w' = _handledAutoSubscriptions w ++ news ∧
          Forall (λ r, length (heap w) ≤ r < length (heap w')) news ∧
          log w' = log w ++ omap (track_at (heap w')) news.

Definition instrumented (e : Event) : list Event :=
  if Instrumentation_impl then [e] else [].

Definition emits (es : list Event) (w : World) : World :=
  {| heap := heap w; _handledAutoSubscriptions := _handledAutoSubscriptions w;
     _isMounted := _isMounted w; props := props w; log := log w ++ es |}.

(** The deregistrations of a sweep over [l]: one per unused subscription,
    in registry order. *)
Definition swept (h : list AutoSubscription) (l : list nat) : list Event :=
  omap (remove_at h) (filter (λ r, is_used h r = false) l).

(** The instance when the build function is entered: the flags are reset
    and the build is announced. *)
Definition before_reads (p : Props) (initialBuild : bool) (w : World) : World :=
  emit (buildState p initialBuild) (instrument beginBuildState (reset_used w)).

(** The instance when the build function has returned or thrown: its reads
    are handled. *)
Definition after_reads (build : BuildState) (p : Props) (initialBuild : bool)
    (w : World) : World :=
  foldl handle (before_reads p initialBuild w) (reads (build p initialBuild)).

(** The sweep property read to the letter: a pair read by one build and not
    by the next has lost the subscription that stood for it. *)
Definition swept_when_unread (build1 : BuildState) (p1 : Props) (ib1 : bool)
    (build2 : BuildState) (p2 : Props) (ib2 : bool) (w : World) : Prop :=
  ∀ state1 w1 state2 w2 st k r sub,
    _buildStateWithAutoSubscriptions build1 p1 ib1 w = (Normal state1, w1) →
    _buildStateWithAutoSubscriptions build2 p2 ib2 w1 = (Normal state2, w2) →
    (st, k) ∈ reads (build1 p1 ib1) → (st, k) ∉ reads (build2 p2 ib2) →
    first_match w1 (st, k) = Some r → heap w1 !! r = Some sub →
    (r ∉ _handledAutoSubscriptions w2) ∧
    removeAutoSubscription (store sub) r ∈ log w2 ∧
    r ∉ store_index (store sub) (log w2).

(** Absorption read to the letter: whenever the registry holds a [Key_All]
    subscription for a storeId, a read on that storeId marks that
    subscription used and leaves the registry as it is. *)
Definition Key_All_marked (w : World) : Prop :=
  ∀ r sub st k,
    r ∈ _handledAutoSubscriptions w → heap w !! r = Some sub →
    key sub = Key_All → storeId (store sub) = storeId st →
    is_used (heap (_handleAutoSubscribe st k w)) r = true ∧
    _handledAutoSubscriptions (_handleAutoSubscribe st k w) =
      _handledAutoSubscriptions w.

(** The asymmetry read to the letter: a build that reads a specific key on
    a store and later [Key_All] on it ends with two subscriptions for the
    store, one per key. *)
Definition two_subscriptions (build : BuildState) (p : Props) (ib : bool)
    (w : World) : Prop :=
  ∀ state w' st k st' rs1 rs2 rs3,
    _buildStateWithAutoSubscriptions build p ib w = (Normal state, w') →
    reads (build p ib) = rs1 ++ (st, k) :: rs2 ++ (st', Key_All) :: rs3 →
    storeId st' = storeId st → k ≠ Key_All →
    (storeId st, k) ∈ pairs w' ∧ (storeId st, Key_All) ∈ pairs w'.

(** Store calls and instrumentation hooks, as opposed to invocations of the
    build function, of the comparator and of [setState]. *)
Definition is_bookkeeping (e : Event) : bool :=
  match e with
  | trackAutoSubscription _ _ | removeAutoSubscription _ _
  | beginBuildState | endBuildState => true
  | _ => false
  end.

Definition is_comparator (e : Event) : bool :=
  match e with
  | comparator _ _ => true
  | _ => false
  end.

Definition is_initial_build (e : Event) : bool :=
  match e with
  | buildState _ true => true
  | _ => false
  end.

(** How many initial builds a log records. *)
Definition initial_builds (l : list Event) : nat :=
  length (filter (λ e, is_initial_build e = true) l).

(** How many evaluations of [getDerivedStateFromProps] find the component
    not mounted, [m] being the mounted flag at the start. *)
Fixpoint unmounted_evaluations (m : bool) (evs : list Lifecycle) : nat :=
  match evs with
  | [] => 0
  | GetDerivedStateFromProps _ _ :: evs =>
      (if m then 0 else 1) + unmounted_evaluations m evs
  | ComponentDidMount :: evs => unmounted_evaluations true evs
  | ComponentWillUnmount :: evs => unmounted_evaluations false evs
  | _ :: evs => unmounted_evaluations m evs
  end.

Definition after_unmount (ev : Lifecycle) : bool :=
  match ev with
  | StoreNotification _ | AssignProps _ => true
  | _ => false
  end.

Fixpoint while_mounted (evs : list Lifecycle) : bool :=
  match evs with
  | [] => true
  | ComponentWillUnmount :: evs => forallb after_unmount evs
  | ComponentDidMount :: _ => false
  | _ :: evs => while_mounted evs
  end.

(** The life of a component under a host that renders it once before
    mounting it and never after unmounting it. *)
Definition hosted (evs : list Lifecycle) : bool :=
  match evs with
  | GetDerivedStateFromProps _ _ :: ComponentDidMount :: evs => while_mounted evs
  | _ => false
  end.

(** "Exactly once" read to the letter: whatever the lifecycle events, the
    log of a component records at most one initial build. *)
Definition built_once (evs : list Lifecycle) (p : Props) : Prop :=
  initial_builds (log (lifecycle evs (constructor p))) ≤ 1.

Definition prop_change (ev : Lifecycle) : bool :=
  match ev with
  | GetDerivedStateFromProps _ _ | AssignProps _ => true
  | _ => false
  end.

(** A lifecycle event of a component that does not override [_buildState]. *)
Definition not_overridden (ev : Lifecycle) : Prop :=
  match ev with
  | GetDerivedStateFromProps build _ | StoreNotification build => build = _buildState
  | _ => True
  end.

Definition is_remove (e : Event) : bool :=
  match e with
  | removeAutoSubscription _ _ => true
  | _ => false
  end.

Definition is_store_call (e : Event) : bool :=
  match e with
  | trackAutoSubscription _ _ | removeAutoSubscription _ _ => true
  | _ => false
  end.

(** ** Store calls about one subscription *)

(** What a store call says about the subscription [r]: registered ([true])
    or removed ([false]), and on which store. *)
Definition call_for (r : nat) (e : Event) : option (bool * StoreBase) :=
  match e with
  | trackAutoSubscription st r' => if decide (r' = r) then Some (true, st) else None
  | removeAutoSubscription st r' => if decide (r' = r) then Some (false, st) else None
  | _ => None
  end.

(** The store calls of a log that are about [r], in order. *)
Definition calls_for (r : nat) (l : list Event) : list (bool * StoreBase) :=
  omap (call_for r) l.

(** The store a subscription object belongs to. *)
Definition store_at (h : list AutoSubscription) (r : nat) : option StoreBase :=
  store <$> h !! r.

(** The store calls made so far are balanced against the registry: a
    subscription of the registry was registered once, on its store, and not
    removed; a subscription object that left the registry was registered
    once and then removed once, on its store; nothing else was called. *)
Definition balanced (w : World) : Prop :=
  NoDup (_handledAutoSubscriptions w) ∧ valid w ∧
  ∀ r, calls_for r (log w) =
       match store_at (heap w) r with
       | Some st =>
           if decide (r ∈ _handledAutoSubscriptions w)
           then [(true, st)] else [(true, st); (false, st)]
       | None => []
       end.

Definition not_mount (ev : Lifecycle) : bool :=
  match ev with
  | ComponentDidMount => false
  | _ => true
  end.

(** ** The render method installed by the constructor *)

Context {Element : Type}.

(** What a render method returns. *)
Inductive Rendered :=
| element (x : Element)
| null
| undefined.

(** [Options.preventTryCatchInRender] and [Options.development] of
    Options.ts, and [noop] of utils.ts: the files are not part of the
    sources, so the three are parameters. *)
Variable preventTryCatchInRender : bool.
Variable development : bool.
Variable noop : M Rendered.

(** The [render] the constructor builds from the render of the derived
    class, if it has one, before it hands it to
    [forbidAutoSubscribeWrapper].  A render that throws leaves the instance
    as it was at the throw. *)
Definition render (derived : option (M Rendered)) : M Rendered :=
  let derivedClassRender := default noop derived in
  if negb preventTryCatchInRender then
    λ w, match derivedClassRender w with
         | (Normal v, w') => (Normal v, w')
         | (Throw e, w') =>
             if development then (Throw e, w') else (Normal null, w')
         end
  else derivedClassRender.

End ComponentBase.

(** ** Sample stores and components *)

Definition sample_Key_All : string := "%!$all".

Definition storeA : StoreBase := {| storeObj := 0; storeId := "A" |}.
Definition storeB : StoreBase := {| storeObj := 1; storeId := "B" |}.

(** A component whose build function reads the given pairs and returns a
    state with one entry. *)
Definition reading (rs : list (StoreBase * string)) : @BuildState nat nat unit :=
  λ _ _, {| reads := rs; finish := Normal (Some [("value", 1)]) |}.

(** A component whose build function reads the given pairs and throws. *)
Definition failing (rs : list (StoreBase * string)) : @BuildState nat nat unit :=
  λ _ _, {| reads := rs; finish := Throw (Thrown tt) |}.

(** A component whose build function reads the given pairs and returns an
    object without keys. *)
Definition silent (rs : list (StoreBase * string)) : @BuildState nat nat unit :=
  λ _ _, {| reads := rs; finish := Normal (Some []) |}.

Definition sample_comparator (a b : nat) : bool := bool_decide (a = b).

Definition always_equal (a b : nat) : bool := true.

Definition sample_reads : list (StoreBase * string) :=
  [(storeA, "x"); (storeA, sample_Key_All); (storeA, "y"); (storeB, "x");
   (storeA, "x")].

(** A constructed component with props [0]. *)
Definition fresh : @World nat nat := constructor 0.

(** The instance after a completed build with the given reads. *)
Definition built (rs : list (StoreBase * string)) (w : @World nat nat) : @World nat nat :=
  (_buildStateWithAutoSubscriptions sample_Key_All false (reading rs) 0 false w).2.

(** * Properties *)

Section Properties.

Context {Props Value T : Type}.
Variable Key_All : string.
Variable cmp : Props → Props → bool.
Variable instr : bool.

Implicit Types (w : @World Props Value) (h : list AutoSubscription)
  (r : nat) (rd : StoreBase * string)
  (rs : list (StoreBase * string)) (build : @BuildState Props Value T).

(** ** Searching an array *)

Lemma utils_find_Some {A} (array : list A) (P : A → bool) (x : A) :
  utils_find array P = Some x →
  P x = true ∧ ∃ l1 l2, array = l1 ++ x :: l2 ∧ ∀ y, y ∈ l1 → P y = false.
Proof.
  induction array as [|a array IH]; simpl; [done|].
  destruct (P a) eqn:Ha.
  - intros [= ->]. split; [done|]. exists [], array. split; [done|].
    intros y Hy. by apply elem_of_nil in Hy.
  - intros Hf. destruct (IH Hf) as (Hx & l1 & l2 & -> & Hl1).
    split; [done|]. exists (a :: l1), l2. split; [done|].
    intros y [->|Hy]%elem_of_cons; auto.
Qed.

Lemma utils_find_None {A} (array : list A) (P : A → bool) :
  utils_find array P = None ↔ ∀ y, y ∈ array → P y = false.
Proof.
  induction array as [|a array IH]; simpl.
  - split; [|done]. intros _ y Hy. by apply elem_of_nil in Hy.
  - destruct (P a) eqn:Ha.
    + split; [done|]. intros Hall. specialize (Hall a (list_elem_of_here _ _)).
      congruence.
    + rewrite IH. split.
      * intros Hall y [->|Hy]%elem_of_cons; auto.
      * intros Hall y Hy. apply Hall. by apply list_elem_of_further.
Qed.

Lemma utils_find_elem_of {A} (array : list A) (P : A → bool) (x : A) :
  utils_find array P = Some x → x ∈ array.
Proof.
  intros (_ & l1 & l2 & -> & _)%utils_find_Some.
  apply elem_of_app. right. apply list_elem_of_here.
Qed.

Lemma utils_find_app {A} (l1 l2 : list A) (P : A → bool) :
  utils_find (l1 ++ l2) P =
  match utils_find l1 P with
  | Some x => Some x
  | None => utils_find l2 P
  end.
Proof.
  induction l1 as [|a l1 IH]; simpl; [done|]. by destruct (P a).
Qed.

Lemma utils_find_ext {A} (array : list A) (P Q : A → bool) :
  (∀ y, y ∈ array → P y = Q y) → utils_find array P = utils_find array Q.
Proof.
  induction array as [|a array IH]; simpl; [done|]. intros Hext.
  rewrite (Hext a (list_elem_of_here _ _)), IH; [done|].
  intros y Hy. apply Hext. by apply list_elem_of_further.
Qed.

(** The first match survives the removal of other elements. *)
Lemma utils_find_filter {A} (array : list A) (P : A → bool) (Q : A → Prop)
    `{∀ x, Decision (Q x)} (x : A) :
  utils_find array P = Some x → Q x → utils_find (filter Q array) P = Some x.
Proof.
  induction array as [|a array IH]; simpl; [done|]. intros Hf Hq.
  destruct (P a) eqn:Ha.
  - injection Hf as ->. rewrite filter_cons_True by done. simpl. by rewrite Ha.
  - rewrite filter_cons. destruct (decide (Q a)); simpl; [rewrite Ha|]; auto.
Qed.

(** ** Subscription objects *)

Lemma static_alter u r h : static <$> alter (set_used u) r h = static <$> h.
Proof.
  rewrite (list_fmap_alter static (set_used u) id).
  - by apply list_alter_id.
  - by apply Forall_forall.
Qed.

Lemma sub_eq (sub sub' : AutoSubscription) :
  static sub = static sub' → used sub = used sub' → sub = sub'.
Proof. destruct sub, sub'; unfold static; simpl; congruence. Qed.

Lemma static_prefix_length h h' :
  static <$> h `prefix_of` static <$> h' → length h ≤ length h'.
Proof. intros Hp%prefix_length. by rewrite !length_fmap in Hp. Qed.

Lemma static_lookup h h' r sub :
  static <$> h `prefix_of` static <$> h' → h !! r = Some sub →
  ∃ sub', h' !! r = Some sub' ∧ static sub' = static sub.
Proof.
  intros Hp Hr.
  assert ((static <$> h) !! r = Some (static sub)) as Hs
    by (by rewrite list_lookup_fmap, Hr).
  eapply prefix_lookup_Some in Hs; [|done].
  rewrite list_lookup_fmap in Hs.
  destruct (h' !! r) as [sub'|] eqn:E; [|done].
  apply (inj Some) in Hs. eauto.
Qed.

Lemma matching_static st k (sub sub' : AutoSubscription) :
  static sub = static sub' → matching Key_All st k sub = matching Key_All st k sub'.
Proof.
  destruct sub, sub'. unfold static, matching. simpl. intros. by simplify_eq.
Qed.

Lemma matching_ref_grows h h' st k r :
  static <$> h `prefix_of` static <$> h' → r < length h →
  matching_ref Key_All h' st k r = matching_ref Key_All h st k r.
Proof.
  intros Hp Hr. unfold matching_ref.
  destruct (lookup_lt_is_Some_2 h r Hr) as [sub Hsub].
  destruct (static_lookup _ _ _ _ Hp Hsub) as (sub' & -> & Hst).
  rewrite Hsub. by apply matching_static.
Qed.

Lemma matching_ref_Some h st k r :
  matching_ref Key_All h st k r = true →
  ∃ sub, h !! r = Some sub ∧ matching Key_All st k sub = true.
Proof. unfold matching_ref. destruct (h !! r); [eauto|done]. Qed.

Lemma matching_spec st k (sub : AutoSubscription) :
  matching Key_All st k sub = true ↔
  storeId (store sub) = storeId st ∧ (key sub = k ∨ key sub = Key_All).
Proof.
  unfold matching.
  rewrite andb_true_iff, orb_true_iff, !bool_decide_eq_true. done.
Qed.

Lemma track_at_grows h h' r :
  static <$> h `prefix_of` static <$> h' → r < length h →
  @track_at Props Value h' r = track_at h r.
Proof.
  intros Hp Hr. unfold track_at.
  destruct (lookup_lt_is_Some_2 h r Hr) as [sub Hsub].
  destruct (static_lookup _ _ _ _ Hp Hsub) as (sub' & -> & Hst).
  rewrite Hsub. simpl. destruct sub, sub'. unfold static in Hst. by simplify_eq/=.
Qed.

Lemma is_used_lt h r : is_used h r = true → r < length h.
Proof.
  unfold is_used. destruct (h !! r) eqn:E; [|done].
  intros _. by eapply lookup_lt_Some.
Qed.

Lemma is_used_alter_eq u r h :
  r < length h → is_used (alter (set_used u) r h) r = u.
Proof.
  intros [sub Hsub]%lookup_lt_is_Some_2. unfold is_used.
  by rewrite list_lookup_alter_eq, Hsub.
Qed.

Lemma is_used_alter_ne u r r' h :
  r ≠ r' → is_used (alter (set_used u) r h) r' = is_used h r'.
Proof. intros Hne. unfold is_used. by rewrite list_lookup_alter_ne. Qed.

Lemma is_used_snoc h (sub : AutoSubscription) r :
  is_used (h ++ [sub]) r = if decide (r = length h) then used sub else is_used h r.
Proof.
  unfold is_used. destruct (decide (r = length h)) as [->|Hne].
  - by rewrite list_lookup_middle.
  - destruct (decide (r < length h)).
    + by rewrite lookup_app_l.
    + rewrite !lookup_ge_None_2; [done|lia|]. rewrite length_app. simpl. lia.
Qed.

Lemma omap_ext_elem {A B} (f g : A → option B) (xs : list A) :
  (∀ x, x ∈ xs → f x = g x) → omap f xs = omap g xs.
Proof.
  induction xs as [|a xs IH]; [done|]. intros Hext. csimpl.
  rewrite (Hext a (list_elem_of_here _ _)), IH; [done|].
  intros x Hx. apply Hext. by apply list_elem_of_further.
Qed.

(** ** Handling reads *)

Lemma valid_extends w w' : valid w → extends w w' → valid w'.
Proof.
  intros Hv (Hp & _ & _ & news & HR & Hn & _).
  pose proof (static_prefix_length _ _ Hp).
  unfold valid. rewrite HR. apply Forall_app. split.
  - eapply Forall_impl; [exact Hv|]. simpl. lia.
  - eapply Forall_impl; [exact Hn|]. simpl. lia.
Qed.

Lemma extends_refl w : extends w w.
Proof.
  split; [done|]. do 2 (split; [done|]). exists []. by rewrite !app_nil_r.
Qed.

Lemma extends_trans w1 w2 w3 : extends w1 w2 → extends w2 w3 → extends w1 w3.
Proof.
  intros (Hp1 & Hm1 & Hpr1 & n1 & HR1 & Hn1 & Hl1)
         (Hp2 & Hm2 & Hpr2 & n2 & HR2 & Hn2 & Hl2).
  pose proof (static_prefix_length _ _ Hp1).
  pose proof (static_prefix_length _ _ Hp2).
  split; [by etrans|]. split; [congruence|]. split; [congruence|].
  exists (n1 ++ n2). split; [by rewrite HR2, HR1, app_assoc|]. split.
  - apply Forall_app.
    split; (eapply Forall_impl; [eassumption|]); simpl; lia.
  - rewrite Hl2, Hl1, omap_app, app_assoc. do 2 f_equal.
    apply omap_ext_elem. intros r Hr. symmetry.
    apply track_at_grows; [done|].
    rewrite Forall_forall in Hn1. apply Hn1 in Hr. lia.
Qed.

Lemma handle_found w rd r :
  first_match Key_All w rd = Some r →
  handle Key_All w rd = with_heap (alter (set_used true) r (heap w)) w.
Proof. unfold handle, _handleAutoSubscribe, first_match. by intros ->. Qed.

Lemma handle_new w rd :
  first_match Key_All w rd = None →
  handle Key_All w rd =
  emit (trackAutoSubscription rd.1 (length (heap w)))
    (with_subscriptions (_handledAutoSubscriptions w ++ [length (heap w)])
       (with_heap
          (heap w ++ [{| store := rd.1; key := rd.2;
                         callback := OnAutoSubscriptionChanged; used := true |}])
          w)).
Proof. unfold handle, _handleAutoSubscribe, first_match. by intros ->. Qed.

Lemma handle_extends w rd : extends w (handle Key_All w rd).
Proof.
  destruct (first_match Key_All w rd) as [r|] eqn:Hf.
  - rewrite (handle_found _ _ _ Hf). split; simpl.
    { by rewrite static_alter. }
    do 2 (split; [done|]). exists []. by rewrite !app_nil_r.
  - rewrite (handle_new _ _ Hf). split; simpl.
    { rewrite fmap_app. by apply prefix_app_r. }
    do 2 (split; [done|]). exists [length (heap w)].
    split; [done|]. split.
    + apply Forall_singleton. rewrite length_app. simpl. lia.
    + simpl. unfold track_at. by rewrite list_lookup_middle.
Qed.

Lemma handle_reads_extends w rs : extends w (foldl (handle Key_All) w rs).
Proof.
  revert w. induction rs as [|rd rs IH]; intros w; simpl.
  - apply extends_refl.
  - eapply extends_trans; [apply handle_extends|apply IH].
Qed.

Lemma first_match_elem_of w rd r :
  first_match Key_All w rd = Some r →
  r ∈ _handledAutoSubscriptions w ∧
  ∃ sub, heap w !! r = Some sub ∧ matching Key_All rd.1 rd.2 sub = true.
Proof.
  unfold first_match, _findMatchingAutoSubscription. intros Hf. split.
  - by eapply utils_find_elem_of.
  - apply utils_find_Some in Hf as [Hm _]. by apply matching_ref_Some.
Qed.

(** Once a read has a first match, it keeps it. *)
Lemma first_match_extends w w' rd r :
  valid w → extends w w' →
  first_match Key_All w rd = Some r → first_match Key_All w' rd = Some r.
Proof.
  intros Hv (Hp & _ & _ & news & HR & _) Hf.
  unfold first_match, _findMatchingAutoSubscription in *.
  rewrite HR, utils_find_app.
  rewrite (utils_find_ext _ _ (matching_ref Key_All (heap w) rd.1 rd.2)).
  - by rewrite Hf.
  - intros y Hy. apply matching_ref_grows; [done|].
    unfold valid in Hv. rewrite Forall_forall in Hv. by apply Hv.
Qed.

Lemma handle_first_match w rd :
  valid w →
  ∃ r, first_match Key_All (handle Key_All w rd) rd = Some r ∧
       ∀ r', is_used (heap (handle Key_All w rd)) r' = true ↔
             is_used (heap w) r' = true ∨ r' = r.
Proof.
  intros Hv. unfold valid in Hv. rewrite Forall_forall in Hv.
  destruct (first_match Key_All w rd) as [r|] eqn:Hf.
  - exists r. rewrite (handle_found _ _ _ Hf).
    pose proof (first_match_elem_of _ _ _ Hf) as [Hr _]. apply Hv in Hr.
    split.
    + rewrite <- Hf. unfold first_match, _findMatchingAutoSubscription. simpl.
      apply utils_find_ext. intros y Hy. apply matching_ref_grows.
      * by rewrite static_alter.
      * by apply Hv.
    + intros r'. simpl. destruct (decide (r = r')) as [<-|Hne].
      * rewrite is_used_alter_eq by done. split; auto.
      * rewrite is_used_alter_ne by done. split; [auto|]. by intros [?|?].
  - exists (length (heap w)). rewrite (handle_new _ _ Hf). split.
    + unfold first_match, _findMatchingAutoSubscription in *. simpl.
      rewrite utils_find_app.
      rewrite (utils_find_ext _ _ (matching_ref Key_All (heap w) rd.1 rd.2)).
      * rewrite Hf. simpl. unfold matching_ref.
        rewrite (list_lookup_middle (heap w) [] _ _ eq_refl).
        unfold matching. simpl.
        rewrite (bool_decide_eq_true_2 (storeId rd.1 = storeId rd.1)) by done.
        by rewrite (bool_decide_eq_true_2 (rd.2 = rd.2)) by done.
      * intros y Hy. apply matching_ref_grows; [|by apply Hv].
        rewrite fmap_app. by apply prefix_app_r.
    + intros r'. simpl. rewrite is_used_snoc. simpl.
      destruct (decide (r' = length (heap w))); split; auto.
      by intros [?|?].
Qed.

(** After the reads of a build were handled, every read has a first match
    in the registry, and the used subscriptions are those that were used
    before together with the first matches of the reads. *)
Lemma handle_reads_used w rs :
  valid w →
  (∀ rd, rd ∈ rs → is_Some (first_match Key_All (foldl (handle Key_All) w rs) rd)) ∧
  (∀ r, is_used (heap (foldl (handle Key_All) w rs)) r = true ↔
        is_used (heap w) r = true ∨
        ∃ rd, rd ∈ rs ∧ first_match Key_All (foldl (handle Key_All) w rs) rd = Some r).
Proof.
  revert w. induction rs as [|rd0 rs IH]; intros w Hv; simpl.
  - split.
    + intros rd Hrd. by apply elem_of_nil in Hrd.
    + intros r. split; [auto|]. intros [?|(rd & Hrd & _)]; [done|].
      by apply elem_of_nil in Hrd.
  - pose proof (valid_extends _ _ Hv (handle_extends w rd0)) as Hv1.
    destruct (IH _ Hv1) as [IH1 IH2].
    destruct (handle_first_match w rd0 Hv) as (r0 & Hr0 & Hused).
    pose proof (first_match_extends _ _ _ _ Hv1
                  (handle_reads_extends _ rs) Hr0) as Hr0'.
    split.
    + intros rd [->|Hrd]%elem_of_cons; [by rewrite Hr0'|by apply IH1].
    + intros r. rewrite IH2, Hused. split.
      * intros [[? | ->] | (rd & Hrd & Hm)]; [by left| |].
        -- right. exists rd0. split; [apply list_elem_of_here|done].
        -- right. exists rd. split; [by apply list_elem_of_further|done].
      * intros [? | (rd & [-> | Hrd]%elem_of_cons & Hm)]; [by left; left| |].
        -- left. right. congruence.
        -- right. eauto.
Qed.

(** ** Resetting the flags *)

Lemma reset_static h (xs : list nat) :
  static <$> foldl (λ h r, alter (set_used false) r h) h xs = static <$> h.
Proof.
  revert h. induction xs as [|a xs IH]; intros h; simpl; [done|].
  by rewrite IH, static_alter.
Qed.

Lemma reset_lookup_ne h (xs : list nat) r :
  r ∉ xs → foldl (λ h r, alter (set_used false) r h) h xs !! r = h !! r.
Proof.
  revert h. induction xs as [|a xs IH]; intros h; simpl; [done|].
  intros [Hne Hr]%not_elem_of_cons. rewrite IH by done.
  by apply list_lookup_alter_ne.
Qed.

Lemma reset_is_used h (xs : list nat) r :
  r ∈ xs → is_used (foldl (λ h r, alter (set_used false) r h) h xs) r = false.
Proof.
  revert h. induction xs as [|a xs IH]; intros h; simpl.
  - by intros ?%elem_of_nil.
  - intros Hr. destruct (decide (r ∈ xs)) as [Hin|Hout]; [by apply IH|].
    apply elem_of_cons in Hr as [->|?]; [|done].
    unfold is_used. rewrite reset_lookup_ne, list_lookup_alter_eq by done.
    by destruct (h !! a).
Qed.

Lemma emits_nil w : emits [] w = w.
Proof. destruct w. unfold emits. simpl. by rewrite app_nil_r. Qed.

Lemma emits_cons e es w : emits (e :: es) w = emits es (emit e w).
Proof. unfold emits, emit. simpl. by rewrite <- app_assoc. Qed.

(** ** The sweep *)

Lemma utils_remove_sweep (xs : list nat) w :
  Forall (λ r, r < length (heap w)) xs →
  utils_remove xs sweep_predicate w =
  (filter (λ r, is_used (heap w) r = true) xs, emits (swept (heap w) xs) w).
Proof.
  revert w. induction xs as [|a xs IH]; intros w Hv; simpl.
  - by rewrite emits_nil.
  - apply Forall_cons in Hv as [Ha Hv].
    destruct (lookup_lt_is_Some_2 _ _ Ha) as [sub Hsub].
    assert (is_used (heap w) a = used sub) as Hu
      by (unfold is_used; by rewrite Hsub).
    assert (sweep_predicate a w =
            if used sub then (false, w)
            else (true, emit (removeAutoSubscription (store sub) a) w)) as ->.
    { unfold sweep_predicate, _shouldRemoveAndCleanupAutoSubscription.
      rewrite Hsub. by destruct (used sub). }
    unfold swept. rewrite !filter_cons, Hu.
    destruct (used sub) eqn:Hused.
    + by rewrite IH.
    + assert (@remove_at Props Value (heap w) a =
              Some (removeAutoSubscription (store sub) a)) as Hra
        by (unfold remove_at; by rewrite Hsub).
      rewrite IH by done. simpl. csimpl. rewrite Hra.
      by rewrite emits_cons.
Qed.

Lemma sweep_spec w :
  valid w →
  sweep w =
  with_subscriptions (filter (λ r, is_used (heap w) r = true) (_handledAutoSubscriptions w))
    (emits (swept (heap w) (_handledAutoSubscriptions w)) w).
Proof. intros Hv. unfold sweep. by rewrite utils_remove_sweep. Qed.

(** ** One build *)

Lemma build_unfold build p ib w :
  _buildStateWithAutoSubscriptions Key_All instr build p ib w =
  match finish (build p ib) with
  | Normal state =>
      (Normal state, sweep (instrument instr endBuildState (after_reads Key_All instr build p ib w)))
  | Throw e => (Throw e, after_reads Key_All instr build p ib w)
  end.
Proof.
  unfold _buildStateWithAutoSubscriptions, after_reads, bind, modify, ret.
  by destruct (finish (build p ib)).
Qed.

Lemma instrument_emits e w : instrument instr e w = emits (instrumented instr e) w.
Proof.
  unfold instrument, instrumented. destruct instr; [|by rewrite emits_nil].
  by rewrite emits_cons, emits_nil.
Qed.

Lemma before_reads_spec p ib w :
  before_reads instr p ib w =
  emits (instrumented instr beginBuildState ++ [buildState p ib]) (reset_used w).
Proof.
  unfold before_reads. rewrite instrument_emits. unfold emits, emit. simpl.
  by rewrite <- app_assoc.
Qed.

Lemma valid_before_reads p ib w : valid w → valid (before_reads instr p ib w).
Proof.
  intros Hv. rewrite before_reads_spec.
  unfold valid in *. simpl. eapply Forall_impl; [exact Hv|]. simpl.
  intros x Hx. by rewrite <- (length_fmap static), reset_static, length_fmap.
Qed.

(** ** The invariant *)

Lemma pairs_of_grows h h' (xs : list nat) :
  static <$> h `prefix_of` static <$> h' → Forall (λ r, r < length h) xs →
  pairs_of h' xs = pairs_of h xs.
Proof.
  intros Hp Hv. apply omap_ext_elem. intros r Hr.
  rewrite Forall_forall in Hv. apply Hv in Hr.
  destruct (lookup_lt_is_Some_2 h r Hr) as [sub Hsub].
  destruct (static_lookup _ _ _ _ Hp Hsub) as (sub' & -> & Hst).
  rewrite Hsub. simpl. destruct sub, sub'. unfold static in Hst.
  unfold pair_of. by simplify_eq/=.
Qed.

Lemma pairs_of_filter h (xs : list nat) (P : nat → Prop) `{∀ x, Decision (P x)} :
  NoDup (pairs_of h xs) → NoDup (pairs_of h (filter P xs)).
Proof.
  unfold pairs_of. induction xs as [|a xs IH]; [done|].
  rewrite filter_cons. csimpl.
  assert (∀ y, y ∈ omap (λ r, pair_of <$> h !! r) (filter P xs) →
               y ∈ omap (λ r, pair_of <$> h !! r) xs) as Hsub.
  { intros y (x & Hx & Hy)%list_elem_of_omap. apply list_elem_of_omap.
    exists x. split; [|done]. by apply list_elem_of_filter in Hx as [_ ?]. }
  destruct (decide (P a)); csimpl; destruct (pair_of <$> h !! a) eqn:E.
  - intros [Hn Hd]%NoDup_cons. apply NoDup_cons. auto.
  - auto.
  - intros [Hn Hd]%NoDup_cons. auto.
  - auto.
Qed.

Lemma pairs_of_elem h (xs : list nat) sid k :
  (sid, k) ∈ pairs_of h xs ↔
  ∃ r sub, r ∈ xs ∧ h !! r = Some sub ∧ storeId (store sub) = sid ∧ key sub = k.
Proof.
  unfold pairs_of. rewrite list_elem_of_omap. split.
  - intros (r & Hr & Hp). destruct (h !! r) as [sub|] eqn:E; [|done].
    injection Hp as ? ?. eauto 10.
  - intros (r & sub & Hr & Hsub & <- & <-). exists r. by rewrite Hsub.
Qed.

Lemma wf_handle w rd : wf w → wf (handle Key_All w rd).
Proof.
  intros [Hv Hd]. split; [by eapply valid_extends, handle_extends|].
  unfold pairs. destruct (first_match Key_All w rd) as [r|] eqn:Hf.
  - rewrite (handle_found _ _ _ Hf). simpl.
    rewrite (pairs_of_grows (heap w)); [done| |done].
    by rewrite static_alter.
  - rewrite (handle_new _ _ Hf). simpl. unfold pairs_of.
    rewrite omap_app. fold (pairs_of (heap w ++ [{| store := rd.1; key := rd.2;
      callback := OnAutoSubscriptionChanged; used := true |}])
      (_handledAutoSubscriptions w)).
    rewrite (pairs_of_grows (heap w)); [| |done].
    2:{ rewrite fmap_app. by apply prefix_app_r. }
    csimpl. rewrite (list_lookup_middle (heap w) [] _ _ eq_refl). simpl.
    apply NoDup_app. split; [done|]. split; [|apply NoDup_singleton].
    intros x Hx ->%list_elem_of_singleton.
    apply pairs_of_elem in Hx as (r & sub & Hr & Hsub & Hs & Hk).
    unfold first_match, _findMatchingAutoSubscription in Hf.
    rewrite utils_find_None in Hf. specialize (Hf r Hr).
    unfold matching_ref in Hf. rewrite Hsub in Hf.
    assert (matching Key_All rd.1 rd.2 sub = true); [|congruence].
    apply matching_spec. auto.
Qed.

Lemma wf_handle_reads w rs : wf w → wf (foldl (handle Key_All) w rs).
Proof.
  revert w. induction rs as [|rd rs IH]; intros w Hw; simpl; [done|].
  by apply IH, wf_handle.
Qed.

Lemma wf_emits es w : wf w → wf (emits es w).
Proof. done. Qed.

Lemma wf_emit e w : wf w → wf (emit e w).
Proof. done. Qed.

Lemma wf_reset_used w : wf w → wf (reset_used w).
Proof.
  intros [Hv Hd]. unfold wf, valid, pairs, reset_used in *. simpl.
  pose proof (reset_static (heap w) (_handledAutoSubscriptions w)) as Hs.
  split.
  - eapply Forall_impl; [exact Hv|]. simpl. intros r Hr.
    rewrite <- (length_fmap static), Hs, length_fmap. done.
  - rewrite (pairs_of_grows (heap w)); [done| |done]. by rewrite Hs.
Qed.

Lemma wf_sweep w : wf w → wf (sweep w).
Proof.
  intros [Hv Hd]. rewrite sweep_spec by done. split.
  - unfold valid in *. simpl. rewrite Forall_forall in *.
    intros r [_ Hr]%list_elem_of_filter. by apply Hv.
  - unfold pairs in *. simpl. by apply pairs_of_filter.
Qed.

Lemma wf_after_reads build p ib w : wf w → wf (after_reads Key_All instr build p ib w).
Proof.
  intros Hw. apply wf_handle_reads, wf_emit.
  rewrite instrument_emits. by apply wf_emits, wf_reset_used.
Qed.

(** A build, completed or not, leaves the instance well formed. *)
Lemma wf_build build p ib w :
  wf w → wf (_buildStateWithAutoSubscriptions Key_All instr build p ib w).2.
Proof.
  intros Hw. rewrite build_unfold.
  pose proof (wf_after_reads build p ib w Hw).
  destruct (finish (build p ib)); simpl; [|done].
  apply wf_sweep. rewrite instrument_emits. by apply wf_emits.
Qed.

Lemma wf_constructor (p : Props) : wf (@constructor Props Value p).
Proof. split; [apply Forall_nil_2|apply NoDup_nil_2]. Qed.

(** ** The two halves of a build *)

Lemma emits_app es1 es2 w : emits (es1 ++ es2) w = emits es2 (emits es1 w).
Proof. unfold emits. simpl. by rewrite app_assoc. Qed.

(** The instance when the build function is entered. *)
Lemma before_reads_extends build p ib w :
  extends (before_reads instr p ib w)
          (after_reads Key_All instr build p ib w).
Proof. apply handle_reads_extends. Qed.

Lemma before_reads_unused build p ib w r :
  wf w → r ∈ _handledAutoSubscriptions (after_reads Key_All instr build p ib w) →
  is_used (heap (before_reads instr p ib w)) r = false.
Proof.
  intros Hw Hr.
  destruct (before_reads_extends build p ib w) as (_ & _ & _ & news & HR & Hn & _).
  rewrite HR in Hr. rewrite before_reads_spec in *. simpl in *.
  apply elem_of_app in Hr as [Hr|Hr].
  - by apply reset_is_used.
  - rewrite Forall_forall in Hn. apply Hn in Hr.
    destruct (is_used _ r) eqn:E; [|done]. apply is_used_lt in E. lia.
Qed.

(** When the build function has returned or thrown, the used subscriptions
    of the registry are the first matches of its reads. *)
Lemma after_reads_used build p ib w :
  wf w →
  (∀ rd, rd ∈ reads (build p ib) →
         is_Some (first_match Key_All (after_reads Key_All instr build p ib w) rd)) ∧
  (∀ r, r ∈ _handledAutoSubscriptions (after_reads Key_All instr build p ib w) →
        is_used (heap (after_reads Key_All instr build p ib w)) r = true ↔
        ∃ rd, rd ∈ reads (build p ib) ∧
              first_match Key_All (after_reads Key_All instr build p ib w) rd = Some r).
Proof.
  intros Hw.
  assert (wf (before_reads instr p ib w)) as [Hv0 _].
  { apply wf_emit. rewrite instrument_emits. by apply wf_emits, wf_reset_used. }
  destruct (handle_reads_used _ (reads (build p ib)) Hv0) as [H1 H2].
  split; [exact H1|]. intros r Hr. unfold after_reads at 1. rewrite H2.
  rewrite (before_reads_unused build p ib w r Hw Hr). split.
  - by intros [?|?].
  - by right.
Qed.

(** A build whose build function returns. *)
Lemma build_completed build p ib w state :
  wf w → finish (build p ib) = Normal state →
  _buildStateWithAutoSubscriptions Key_All instr build p ib w =
  (Normal state,
   with_subscriptions
     (filter (λ r, is_used (heap (after_reads Key_All instr build p ib w)) r = true)
        (_handledAutoSubscriptions (after_reads Key_All instr build p ib w)))
     (emits (instrumented instr endBuildState ++
             swept (heap (after_reads Key_All instr build p ib w))
               (_handledAutoSubscriptions (after_reads Key_All instr build p ib w)))
        (after_reads Key_All instr build p ib w))).
Proof.
  intros Hw Hfin. rewrite build_unfold, Hfin. f_equal.
  destruct (wf_after_reads build p ib w Hw) as [Hv _].
  rewrite instrument_emits, sweep_spec by done. simpl.
  by rewrite emits_app.
Qed.

(** A build whose build function throws. *)
Lemma build_throws build p ib w e :
  finish (build p ib) = Throw e →
  _buildStateWithAutoSubscriptions Key_All instr build p ib w =
  (Throw e, after_reads Key_All instr build p ib w).
Proof. intros Hfin. by rewrite build_unfold, Hfin. Qed.

(** ** The subscription set after a build *)


(** ** The index of a store *)

Lemma index_removes_absent st (es : list (@Event Props Value)) index r :
  Forall (λ e, is_remove e = true) es → r ∉ index →
  r ∉ foldl (index_step st) index es.
Proof.
  revert index. induction es as [|e es IH]; intros index Hes Hr; simpl; [done|].
  apply Forall_cons in Hes as [He Hes]. apply IH; [done|].
  destruct e; try done. simpl. destruct (decide (st0 = st)); [|done].
  by intros [_ ?]%list_elem_of_filter.
Qed.

Lemma index_removes st (es : list (@Event Props Value)) index r :
  Forall (λ e, is_remove e = true) es → removeAutoSubscription st r ∈ es →
  r ∉ foldl (index_step st) index es.
Proof.
  revert index. induction es as [|e es IH]; intros index Hes Hr; simpl.
  - by apply elem_of_nil in Hr.
  - apply Forall_cons in Hes as [He Hes].
    apply elem_of_cons in Hr as [<-|Hr]; [|by apply IH].
    apply index_removes_absent; [done|]. simpl.
    rewrite decide_True by done. intros [? _]%list_elem_of_filter. done.
Qed.

Lemma index_ignores st (es : list (@Event Props Value)) index :
  Forall (λ e, is_store_call e = false) es → foldl (index_step st) index es = index.
Proof.
  revert index. induction es as [|e es IH]; intros index Hes; simpl; [done|].
  apply Forall_cons in Hes as [He Hes]. rewrite IH by done. by destruct e.
Qed.

Lemma swept_removes h (xs : list nat) :
  Forall (λ e, is_remove e = true) (@swept Props Value h xs).
Proof.
  apply Forall_forall. intros e (r & _ & He)%list_elem_of_omap.
  unfold remove_at in He. destruct (h !! r); by simplify_eq/=.
Qed.

Lemma instrumented_ignored e :
  is_store_call e = false →
  Forall (λ e, is_store_call e = false) (@instrumented Props Value instr e).
Proof.
  intros He. unfold instrumented. destruct instr; [|done].
  by apply Forall_singleton.
Qed.

(** ** Subscriptions that a build does not use *)

(** The heap of a build in progress holds the objects the build started
    with. *)
Lemma after_reads_static build p ib w :
  static <$> heap w `prefix_of`
  static <$> heap (after_reads Key_All instr build p ib w).
Proof.
  destruct (before_reads_extends build p ib w) as (Hp & _).
  rewrite before_reads_spec in Hp. simpl in Hp.
  by rewrite reset_static in Hp.
Qed.

Lemma after_reads_registry build p ib w :
  ∃ news,
    _handledAutoSubscriptions (after_reads Key_All instr build p ib w) =
      _handledAutoSubscriptions w ++ news ∧
    Forall (λ r, length (heap w) ≤ r <
                 length (heap (after_reads Key_All instr build p ib w))) news ∧
    log (after_reads Key_All instr build p ib w) =
      log w ++ instrumented instr beginBuildState ++ [buildState p ib] ++
      omap (track_at (heap (after_reads Key_All instr build p ib w))) news.
Proof.
  destruct (before_reads_extends build p ib w) as (_ & _ & _ & news & HR & Hn & Hl).
  exists news. rewrite before_reads_spec in *. simpl in *.
  split; [done|]. split.
  - rewrite <- (length_fmap static (heap w)), <- (reset_static (heap w)
      (_handledAutoSubscriptions w)), length_fmap. done.
  - by rewrite Hl, <- !app_assoc.
Qed.

Lemma after_reads_frame build p ib w :
  _isMounted (after_reads Key_All instr build p ib w) = _isMounted w ∧
  props (after_reads Key_All instr build p ib w) = props w.
Proof.
  destruct (before_reads_extends build p ib w) as (_ & Hm & Hp & _).
  rewrite before_reads_spec in *. done.
Qed.

(** A subscription that no read of the build matches is swept: it leaves
    the registry, its store is told, and the store's index drops it. *)
Lemma build_sweeps build p ib w state w' r sub :
  wf w →
  _buildStateWithAutoSubscriptions Key_All instr build p ib w = (Normal state, w') →
  r ∈ _handledAutoSubscriptions w → heap w !! r = Some sub →
  (∀ st k, (st, k) ∈ reads (build p ib) → matching Key_All st k sub = false) →
  (r ∉ _handledAutoSubscriptions w') ∧
  (∃ es, log w' = log w ++ es ∧ removeAutoSubscription (store sub) r ∈ es) ∧
  r ∉ store_index (store sub) (log w').
Proof.
  intros Hw Hb Hr Hsub Hno.
  destruct (finish (build p ib)) as [state'|e] eqn:Hfin.
  2:{ rewrite (build_throws _ _ _ _ _ Hfin) in Hb. done. }
  rewrite (build_completed _ _ _ _ _ Hw Hfin) in Hb.
  injection Hb as -> <-. simpl.
  destruct (after_reads_used build p ib w Hw) as [_ H2].
  destruct (after_reads_registry build p ib w) as (news & HR & Hn & Hl).
  pose proof (after_reads_static build p ib w) as Hst.
  destruct (static_lookup _ _ _ _ Hst Hsub) as (sub' & Hsub' & Hs).
  set (ar := after_reads Key_All instr build p ib w) in *.
  assert (r ∈ _handledAutoSubscriptions ar) as Hr'.
  { rewrite HR. apply elem_of_app. by left. }
  assert (is_used (heap ar) r = false) as Hu.
  { destruct (is_used (heap ar) r) eqn:E; [|done].
    apply H2 in E as ([st k] & Hrd & Hm); [|done].
    apply first_match_elem_of in Hm as (_ & sub'' & Hsub'' & Hm).
    rewrite Hsub' in Hsub''. injection Hsub'' as <-. simpl in Hm.
    rewrite (matching_static _ _ _ _ Hs), (Hno _ _ Hrd) in Hm. done. }
  assert (removeAutoSubscription (store sub) r ∈
          @swept Props Value (heap ar) (_handledAutoSubscriptions ar)) as Hev.
  { apply list_elem_of_omap. exists r. split.
    - by apply list_elem_of_filter.
    - unfold remove_at. rewrite Hsub'. simpl. destruct sub, sub'.
      unfold static in Hs. by simplify_eq/=. }
  split; [|split].
  - intros [Hu' _]%list_elem_of_filter. congruence.
  - rewrite Hl. eexists. rewrite <- !app_assoc. split; [done|].
    rewrite !elem_of_app. auto.
  - unfold store_index. rewrite !foldl_app.
    rewrite (index_ignores _ (instrumented instr endBuildState))
      by by apply instrumented_ignored.
    apply index_removes; [apply swept_removes|done].
Qed.

(** ** Repeating a build *)

Lemma filter_all {A} (P : A → Prop) `{∀ x, Decision (P x)} (xs : list A) :
  (∀ x, x ∈ xs → P x) → filter P xs = xs.
Proof.
  induction xs as [|a xs IH]; [done|]. intros Hall.
  rewrite filter_cons_True by apply Hall, list_elem_of_here.
  rewrite IH; [done|]. intros x Hx. by apply Hall, list_elem_of_further.
Qed.

Lemma filter_none {A} (P : A → Prop) `{∀ x, Decision (P x)} (xs : list A) :
  (∀ x, x ∈ xs → ¬ P x) → filter P xs = [].
Proof.
  induction xs as [|a xs IH]; [done|]. intros Hall.
  rewrite filter_cons_False by apply Hall, list_elem_of_here.
  apply IH. intros x Hx. by apply Hall, list_elem_of_further.
Qed.

Lemma world_eq w w' :
  heap w = heap w' →
  _handledAutoSubscriptions w = _handledAutoSubscriptions w' →
  _isMounted w = _isMounted w' → props w = props w' → log w = log w' → w = w'.
Proof. destruct w, w'. simpl. intros -> -> -> -> ->. reflexivity. Qed.

Lemma heap_eq h h' :
  static <$> h = static <$> h' → (∀ r, is_used h r = is_used h' r) → h = h'.
Proof.
  intros Hs Hu. apply list_eq. intros r.
  pose proof (f_equal (λ x, x !! r) Hs) as Hr. simpl in Hr.
  rewrite !list_lookup_fmap in Hr. specialize (Hu r). unfold is_used in Hu.
  destruct (h !! r) as [sub|], (h' !! r) as [sub'|]; try done.
  f_equal. apply sub_eq; [|done]. simpl in Hr. by apply (inj Some) in Hr.
Qed.

(** A read that already has a match adds nothing. *)
Lemma handle_reads_matched w rs :
  valid w →
  (∀ rd, rd ∈ rs → is_Some (first_match Key_All w rd)) →
  _handledAutoSubscriptions (foldl (handle Key_All) w rs) = _handledAutoSubscriptions w ∧
  log (foldl (handle Key_All) w rs) = log w ∧
  length (heap (foldl (handle Key_All) w rs)) = length (heap w).
Proof.
  revert w. induction rs as [|rd rs IH]; intros w Hv Hall; simpl; [done|].
  destruct (Hall rd (list_elem_of_here _ _)) as [r Hr].
  pose proof (handle_extends w rd) as Hext.
  pose proof (valid_extends _ _ Hv Hext) as Hv1.
  destruct (IH (handle Key_All w rd) Hv1) as (-> & -> & ->).
  - intros rd' Hrd'. destruct (Hall rd' (list_elem_of_further _ _ _ Hrd')) as [r' Hr'].
    exists r'. exact (first_match_extends _ _ _ _ Hv Hext Hr').
  - rewrite (handle_found _ _ _ Hr). simpl. by rewrite length_alter.
Qed.

(** The first match of a read in the registry before the sweep is its
    first match after the sweep. *)
Lemma build_first_match build p ib w state w' rd :
  wf w →
  _buildStateWithAutoSubscriptions Key_All instr build p ib w = (Normal state, w') →
  rd ∈ reads (build p ib) →
  ∃ r, first_match Key_All (after_reads Key_All instr build p ib w) rd = Some r ∧
       first_match Key_All w' rd = Some r.
Proof.
  intros Hw Hb Hrd.
  destruct (finish (build p ib)) as [state'|e] eqn:Hfin.
  2:{ rewrite (build_throws _ _ _ _ _ Hfin) in Hb. done. }
  rewrite (build_completed _ _ _ _ _ Hw Hfin) in Hb. injection Hb as -> <-.
  destruct (after_reads_used build p ib w Hw) as [H1 H2].
  destruct (H1 _ Hrd) as [r Hr]. exists r. split; [done|].
  unfold first_match, _findMatchingAutoSubscription. simpl.
  apply utils_find_filter; [done|].
  apply H2; [by eapply first_match_elem_of|]. eauto.
Qed.

(** After a completed build every subscription of the registry is used
    and is the first match of one of the reads. *)
Lemma build_all_used build p ib w state w' r :
  wf w →
  _buildStateWithAutoSubscriptions Key_All instr build p ib w = (Normal state, w') →
  r ∈ _handledAutoSubscriptions w' →
  is_used (heap w') r = true ∧
  ∃ rd, rd ∈ reads (build p ib) ∧ first_match Key_All w' rd = Some r.
Proof.
  intros Hw Hb Hr.
  destruct (finish (build p ib)) as [state'|e] eqn:Hfin.
  2:{ rewrite (build_throws _ _ _ _ _ Hfin) in Hb. done. }
  pose proof Hb as Hb'.
  rewrite (build_completed _ _ _ _ _ Hw Hfin) in Hb. injection Hb as -> <-.
  simpl in Hr. apply list_elem_of_filter in Hr as [Hu Hin].
  split; [done|].
  destruct (after_reads_used build p ib w Hw) as [_ H2].
  apply H2 in Hu as (rd & Hrd & Hm); [|done]. exists rd. split; [done|].
  destruct (build_first_match _ _ _ _ _ _ rd Hw Hb' Hrd) as (r' & Hr1 & Hr2).
  congruence.
Qed.

Lemma first_match_before_reads p ib w rd :
  valid w →
  first_match Key_All
    (before_reads instr p ib w) rd =
  first_match Key_All w rd.
Proof.
  intros Hv. rewrite before_reads_spec.
  unfold first_match, _findMatchingAutoSubscription. simpl.
  apply utils_find_ext. intros r Hr. apply matching_ref_grows.
  - by rewrite reset_static.
  - unfold valid in Hv. rewrite Forall_forall in Hv. by apply Hv.
Qed.

Lemma bool_eq_true_iff (a b : bool) : (a = true ↔ b = true) → a = b.
Proof. destruct a, b; intros [H1 H2]; auto. symmetry. auto. Qed.

Lemma first_match_after_reads build p ib w rd r :
  valid w → first_match Key_All w rd = Some r →
  first_match Key_All (after_reads Key_All instr build p ib w) rd = Some r.
Proof.
  intros Hv Hr. eapply first_match_extends; [|apply before_reads_extends|].
  - by apply valid_before_reads.
  - by rewrite first_match_before_reads.
Qed.

(** The flags when the build function has returned or thrown, for every
    object of the heap. *)
Lemma after_reads_flags build p ib w r :
  valid w →
  is_used (heap (after_reads Key_All instr build p ib w)) r = true ↔
  ((r ∉ _handledAutoSubscriptions w) ∧ is_used (heap w) r = true) ∨
  ∃ rd, rd ∈ reads (build p ib) ∧
        first_match Key_All (after_reads Key_All instr build p ib w) rd = Some r.
Proof.
  intros Hv.
  pose proof (valid_before_reads p ib w Hv) as Hv0.
  destruct (handle_reads_used _ (reads (build p ib)) Hv0) as [_ H2].
  unfold after_reads at 1. rewrite H2.
  fold (after_reads Key_All instr build p ib w).
  assert (heap (before_reads instr p ib w) = heap (reset_used w)) as ->
    by (by rewrite before_reads_spec).
  simpl.
  destruct (decide (r ∈ _handledAutoSubscriptions w)) as [Hin|Hout].
  - rewrite reset_is_used by done. split.
    + intros [?|?]; [done|by right].
    + intros [[? _]|?]; [done|by right].
  - unfold is_used at 1. rewrite reset_lookup_ne by done.
    fold (is_used (heap w) r). split.
    + intros [?|?]; [by left|by right].
    + intros [[_ ?]|?]; [by left|by right].
Qed.

(** When every read already has a match, handling the reads creates no
    subscription. *)
Lemma after_reads_matched build p ib w :
  valid w →
  (∀ rd, rd ∈ reads (build p ib) → is_Some (first_match Key_All w rd)) →
  _handledAutoSubscriptions (after_reads Key_All instr build p ib w) =
    _handledAutoSubscriptions w ∧
  log (after_reads Key_All instr build p ib w) =
    log w ++ instrumented instr beginBuildState ++ [buildState p ib] ∧
  static <$> heap (after_reads Key_All instr build p ib w) = static <$> heap w.
Proof.
  intros Hv Hall.
  pose proof (valid_before_reads p ib w Hv) as Hv0.
  destruct (handle_reads_matched _ (reads (build p ib)) Hv0) as (HR & Hl & Hlen).
  { intros rd Hrd. rewrite first_match_before_reads by done. by apply Hall. }
  unfold after_reads at 1 2. rewrite HR, Hl, before_reads_spec. simpl.
  split; [done|]. split; [done|].
  symmetry. apply prefix_length_eq; [apply after_reads_static|].
  unfold after_reads. rewrite !length_fmap, Hlen, before_reads_spec. simpl.
  by rewrite <- (length_fmap static), reset_static, length_fmap.
Qed.

(** C3 (idempotence).  A build that completes, followed by a build that
    performs the same reads and completes, leaves the heap of subscription
    objects and the registry as the first build left them, and the second
    build calls neither [trackAutoSubscription] nor [removeAutoSubscription]:
    all it adds to the log is the invocation of the build function and the
    instrumentation around it. *)
Theorem idempotent build1 p1 ib1 build2 p2 ib2 w state1 w1 state2 :
  wf w →
  _buildStateWithAutoSubscriptions Key_All instr build1 p1 ib1 w = (Normal state1, w1) →
  reads (build2 p2 ib2) = reads (build1 p1 ib1) →
  finish (build2 p2 ib2) = Normal state2 →
  ∃ w2,
    _buildStateWithAutoSubscriptions Key_All instr build2 p2 ib2 w1 = (Normal state2, w2) ∧
    heap w2 = heap w1 ∧
    _handledAutoSubscriptions w2 = _handledAutoSubscriptions w1 ∧
    pairs w2 = pairs w1 ∧
    log w2 = log w1 ++ instrumented instr beginBuildState ++ [buildState p2 ib2] ++
             instrumented instr endBuildState.
Proof.
  intros Hw Hb1 Hreads Hfin.
  pose proof (wf_build build1 p1 ib1 w Hw) as Hw1. rewrite Hb1 in Hw1. simpl in Hw1.
  pose proof Hw1 as [Hv1 _].
  destruct (after_reads_matched build2 p2 ib2 w1 Hv1) as (HR & Hl & Hst).
  { intros rd Hrd. rewrite Hreads in Hrd.
    destruct (build_first_match _ _ _ _ _ _ rd Hw Hb1 Hrd) as (r & _ & Hr). eauto. }
  assert (∀ r, r ∈ _handledAutoSubscriptions w1 → is_used (heap w1) r = true)
    as Hall_used.
  { intros r Hr. by destruct (build_all_used _ _ _ _ _ _ r Hw Hb1 Hr). }
  assert (∀ r, is_used (heap (after_reads Key_All instr build2 p2 ib2 w1)) r =
               is_used (heap w1) r) as Hu.
  { intros r. apply bool_eq_true_iff. rewrite after_reads_flags by done.
    destruct (decide (r ∈ _handledAutoSubscriptions w1)) as [Hin|Hout].
    - destruct (build_all_used _ _ _ _ _ _ r Hw Hb1 Hin) as (Hused & rd & Hrd & Hm).
      split; [done|]. intros _. right. exists rd. split; [by rewrite Hreads|].
      by apply first_match_after_reads.
    - split; [|auto]. intros [[_ ?]|(rd & _ & Hm)]; [done|].
      apply first_match_elem_of in Hm as [Hm _]. rewrite HR in Hm. done. }
  pose proof (heap_eq _ _ Hst Hu) as Hheap.
  rewrite (build_completed _ _ _ _ _ Hw1 Hfin).
  rewrite HR, Hheap, (filter_all _ _ Hall_used).
  unfold swept. rewrite filter_none.
  2:{ intros r Hr. rewrite (Hall_used r Hr). done. }
  eexists. split; [done|]. simpl. rewrite app_nil_r.
  split; [done|]. split; [done|]. split.
  - unfold pairs. simpl. by rewrite Hheap.
  - by rewrite Hl, <- !app_assoc.
Qed.


(** ** Absorption by [Key_All] *)

Lemma pairs_of_inj h (xs : list nat) r r' (sub sub' : AutoSubscription) :
  NoDup (pairs_of h xs) → r ∈ xs → r' ∈ xs →
  h !! r = Some sub → h !! r' = Some sub' → pair_of sub = pair_of sub' → r = r'.
Proof.
  intros Hd Hr Hr' Hsub Hsub' Heq. revert Hd Hr Hr'. induction xs as [|a xs IH]; intros Hd Hr Hr'.
  { by apply elem_of_nil in Hr. }
  assert (∀ x y, x ∈ xs → h !! x = Some y → pair_of y ∈ pairs_of h xs) as Hin.
  { intros x y Hx Hy. destruct (pair_of y) as [sid k] eqn:E.
    apply pairs_of_elem. exists x, y. unfold pair_of in E.
    injection E as <- <-. done. }
  unfold pairs_of in Hd. csimpl in Hd. fold (pairs_of h xs) in Hd.
  apply elem_of_cons in Hr as [->|Hr]; apply elem_of_cons in Hr' as [->|Hr'].
  - done.
  - rewrite Hsub in Hd. simpl in Hd. apply NoDup_cons in Hd as [Hn _].
    destruct Hn. rewrite Heq. by eapply Hin.
  - rewrite Hsub' in Hd. simpl in Hd. apply NoDup_cons in Hd as [Hn _].
    destruct Hn. rewrite <- Heq. by eapply Hin.
  - apply IH; [|done|done].
    destruct (pair_of <$> h !! a); [by apply NoDup_cons in Hd as [_ ?]|done].
Qed.


(** ** A [Key_All] read after a specific read *)

Lemma pairs_before_reads p ib w : valid w → pairs (before_reads instr p ib w) = pairs w.
Proof.
  intros Hv. rewrite before_reads_spec.
  unfold pairs. simpl. apply pairs_of_grows; [|done]. by rewrite reset_static.
Qed.

Lemma pairs_handle w rd :
  valid w →
  pairs (handle Key_All w rd) =
  pairs w ++ match first_match Key_All w rd with
             | Some _ => []
             | None => [(storeId rd.1, rd.2)]
             end.
Proof.
  intros Hv. unfold pairs. destruct (first_match Key_All w rd) as [r|] eqn:Hf.
  - rewrite (handle_found _ _ _ Hf), app_nil_r. simpl.
    apply pairs_of_grows; [|done]. by rewrite static_alter.
  - rewrite (handle_new _ _ Hf). simpl. unfold pairs_of.
    rewrite omap_app. f_equal.
    + apply (pairs_of_grows (heap w)); [|done].
      rewrite fmap_app. by apply prefix_app_r.
    + csimpl. by rewrite (list_lookup_middle (heap w) [] _ _ eq_refl).
Qed.

Lemma pairs_handle_reads_absent w rs sid :
  valid w → (sid, Key_All) ∉ pairs w →
  (∀ st, (st, Key_All) ∈ rs → storeId st ≠ sid) →
  (sid, Key_All) ∉ pairs (foldl (handle Key_All) w rs).
Proof.
  revert w. induction rs as [|rd rs IH]; intros w Hv Hno Hrs; simpl; [done|].
  apply IH.
  - by eapply valid_extends, handle_extends.
  - rewrite pairs_handle by done. apply not_elem_of_app. split; [done|].
    destruct (first_match Key_All w rd); [apply not_elem_of_nil|].
    intros Heq%list_elem_of_singleton. injection Heq as Hs Hk.
    destruct rd as [st k]. simpl in *. subst k.
    by apply (Hrs st (list_elem_of_here _ _)).
  - intros st Hst. apply Hrs. by apply list_elem_of_further.
Qed.

Lemma first_match_Key_All_None w st :
  (storeId st, Key_All) ∉ pairs w → first_match Key_All w (st, Key_All) = None.
Proof.
  intros Hno. unfold first_match, _findMatchingAutoSubscription.
  apply utils_find_None. intros r Hr.
  destruct (matching_ref Key_All (heap w) st Key_All r) eqn:E; [|done].
  apply matching_ref_Some in E as (sub & Hsub & Hm).
  apply matching_spec in Hm as [Hs Hk]. destruct Hno.
  apply pairs_of_elem. exists r, sub. by destruct Hk.
Qed.

(** A subscription that is used at some point of a build is still in the
    registry when the build completes, with the same store and key. *)
Lemma build_keeps_used build p ib w state w' wm rs r sub :
  wf w →
  _buildStateWithAutoSubscriptions Key_All instr build p ib w = (Normal state, w') →
  after_reads Key_All instr build p ib w = foldl (handle Key_All) wm rs →
  valid wm → r ∈ _handledAutoSubscriptions wm → heap wm !! r = Some sub →
  used sub = true →
  r ∈ _handledAutoSubscriptions w' ∧
  (∃ sub', heap w' !! r = Some sub' ∧ static sub' = static sub) ∧
  log wm `prefix_of` log w'.
Proof.
  intros Hw Hb Har Hvm Hr Hsub Hused.
  destruct (finish (build p ib)) as [state'|e] eqn:Hfin.
  2:{ rewrite (build_throws _ _ _ _ _ Hfin) in Hb. done. }
  rewrite (build_completed _ _ _ _ _ Hw Hfin) in Hb. injection Hb as -> <-.
  simpl. rewrite Har.
  destruct (handle_reads_extends wm rs) as (Hp & _ & _ & news & HR & _ & Hl).
  destruct (handle_reads_used wm rs Hvm) as [_ H2]. split; [|split].
  - apply list_elem_of_filter. split.
    + apply H2. left. unfold is_used. by rewrite Hsub.
    + rewrite HR. apply elem_of_app. by left.
  - by eapply static_lookup.
  - rewrite Hl, <- app_assoc. by apply prefix_app_r.
Qed.

(** C9 (asymmetry), amended.  Take a completed build that reads a specific
    key [k] on a store and later [Key_All] on a store with the same
    storeId, in an instance that holds no [Key_All] subscription for that
    storeId when the build starts and whose build reads [Key_All] on that
    storeId nowhere before.  Then, when the [Key_All] read is handled, the
    registry holds a subscription for that storeId with key [k]; the read
    matches no subscription, so a new one is created and registered with the
    store; and when the build ends the registry holds both, the older with
    key [k] and the new one with [Key_All].  In any instance, handling a
    [Key_All] read leaves every subscription of the registry in the registry
    with its store and key. *)
Theorem Key_All_after_specific build p ib w state w' st k st' rs1 rs2 rs3 :
  wf w →
  _buildStateWithAutoSubscriptions Key_All instr build p ib w = (Normal state, w') →
  reads (build p ib) = rs1 ++ (st, k) :: rs2 ++ (st', Key_All) :: rs3 →
  storeId st' = storeId st → k ≠ Key_All →
  (storeId st, Key_All) ∉ pairs w →
  (∀ s, (s, Key_All) ∈ rs1 ++ rs2 → storeId s ≠ storeId st) →
  (∃ wc r1 sub1,
    wc = foldl (handle Key_All) (before_reads instr p ib w) (rs1 ++ (st, k) :: rs2) ∧
    r1 ∈ _handledAutoSubscriptions wc ∧ heap wc !! r1 = Some sub1 ∧
    storeId (store sub1) = storeId st ∧ key sub1 = k ∧
    first_match Key_All wc (st', Key_All) = None ∧
    _handledAutoSubscriptions (handle Key_All wc (st', Key_All)) =
      _handledAutoSubscriptions wc ++ [length (heap wc)] ∧
    r1 ∈ _handledAutoSubscriptions w' ∧
    length (heap wc) ∈ _handledAutoSubscriptions w' ∧
    (∃ sub1', heap w' !! r1 = Some sub1' ∧ static sub1' = static sub1) ∧
    (∃ sub2, heap w' !! length (heap wc) = Some sub2 ∧
             store sub2 = st' ∧ key sub2 = Key_All) ∧
    trackAutoSubscription st' (length (heap wc)) ∈ log w') ∧
  (∀ w0 st0 r sub,
     r ∈ _handledAutoSubscriptions w0 → heap w0 !! r = Some sub →
     r ∈ _handledAutoSubscriptions (handle Key_All w0 (st0, Key_All)) ∧
     ∃ sub', heap (handle Key_All w0 (st0, Key_All)) !! r = Some sub' ∧
             static sub' = static sub).
Proof.
  intros Hw Hb Hreads Hsid Hk Hno Hrs. split.
  2:{ intros w0 st0 r sub Hr Hsub.
      destruct (handle_extends w0 (st0, Key_All)) as (Hp & _ & _ & news & -> & _).
      split; [apply elem_of_app; by left|]. by eapply static_lookup. }
  pose proof Hw as [Hv _].
  pose proof (valid_before_reads p ib w Hv) as Hv0.
  set (w0 := before_reads instr p ib w) in *.
  set (wa := foldl (handle Key_All) w0 rs1).
  set (wb := handle Key_All wa (st, k)).
  set (wc := foldl (handle Key_All) wb rs2).
  assert (foldl (handle Key_All) w0 (rs1 ++ (st, k) :: rs2) = wc) as Hwc
    by (by rewrite foldl_app).
  assert (valid wa) as Hva by (eapply valid_extends, handle_reads_extends; done).
  assert (valid wb) as Hvb by (eapply valid_extends, handle_extends; done).
  assert (valid wc) as Hvc by (eapply valid_extends, handle_reads_extends; done).
  assert ((storeId st, Key_All) ∉ pairs wc) as HnoC.
  { rewrite <- Hwc. apply pairs_handle_reads_absent; [done| |].
    - unfold w0. by rewrite pairs_before_reads.
    - intros s Hs. apply Hrs. rewrite elem_of_app in *.
      destruct Hs as [?|Hs]; [by left|]. right.
      apply elem_of_cons in Hs as [Hs|?]; [|done]. congruence. }
  assert (first_match Key_All wc (st', Key_All) = None) as Hnone.
  { apply first_match_Key_All_None. by rewrite Hsid. }
  destruct (handle_first_match wa (st, k) Hva) as (r1 & Hr1 & Hu1).
  fold wb in Hr1, Hu1.
  assert (first_match Key_All wc (st, k) = Some r1) as Hr1c.
  { eapply (first_match_extends wb); [done|apply handle_reads_extends|done]. }
  destruct (first_match_elem_of _ _ _ Hr1c) as (Hin1 & sub1 & Hsub1 & Hm1).
  apply matching_spec in Hm1 as [Hs1 Hk1]. simpl in Hs1, Hk1.
  assert (key sub1 = k) as Hkey1.
  { destruct Hk1 as [?|Hka]; [done|]. destruct HnoC.
    apply pairs_of_elem. exists r1, sub1. done. }
  assert (used sub1 = true) as Hused1.
  { destruct (handle_reads_used wb rs2 Hvb) as [_ H2].
    specialize (H2 r1). fold wc in H2. unfold is_used at 1 in H2.
    rewrite Hsub1 in H2. apply H2. left. apply Hu1. by right. }
  assert (after_reads Key_All instr build p ib w =
          foldl (handle Key_All) wc ((st', Key_All) :: rs3)) as Har.
  { unfold after_reads. fold w0.
    rewrite Hreads, <- Hwc, <- foldl_app, <- app_assoc. done. }
  destruct (build_keeps_used _ _ _ _ _ _ _ _ _ _ Hw Hb Har Hvc Hin1 Hsub1 Hused1)
    as (Hfin1 & Hstat1 & _).
  pose proof (handle_new _ _ Hnone) as Hnew. simpl in Hnew.
  set (wd := handle Key_All wc (st', Key_All)) in *.
  assert (valid wd) as Hvd by (eapply valid_extends, handle_extends; done).
  assert (heap wd !! length (heap wc) =
          Some {| store := st'; key := Key_All;
                  callback := OnAutoSubscriptionChanged; used := true |}) as Hsub2.
  { rewrite Hnew. simpl. by rewrite (list_lookup_middle (heap wc) [] _ _ eq_refl). }
  assert (length (heap wc) ∈ _handledAutoSubscriptions wd) as Hin2.
  { rewrite Hnew. simpl. apply elem_of_app. right. apply list_elem_of_here. }
  destruct (build_keeps_used _ _ _ _ _ _ wd rs3 _ _ Hw Hb Har Hvd Hin2 Hsub2 eq_refl)
    as (Hfin2 & (sub2 & Hsub2' & Hstat2) & [es Hlog]).
  exists wc, r1, sub1. rewrite Hwc.
  split; [done|]. split; [done|]. split; [done|]. split; [done|].
  split; [done|]. split; [done|]. split; [fold wd; by rewrite Hnew|].
  split; [done|]. split; [done|]. split; [done|]. split.
  - exists sub2. split; [done|]. destruct sub2. unfold static in Hstat2.
    by simplify_eq/=.
  - rewrite Hlog, Hnew. simpl. rewrite !elem_of_app. left. right.
    apply list_elem_of_here.
Qed.

(** ** Teardown *)

Lemma alter_None {A} (f : A → A) (xs : list A) (i : nat) :
  xs !! i = None → alter f i xs = xs.
Proof.
  intros Hi. apply list_eq. intros j. rewrite list_lookup_alter.
  destruct (decide (i = j)) as [<-|]; [by rewrite Hi|done].
Qed.

Lemma remove_at_alter u r r' h :
  @remove_at Props Value (alter (set_used u) r h) r' = remove_at h r'.
Proof.
  unfold remove_at. rewrite list_lookup_alter.
  destruct (decide (r = r')) as [<-|]; [|done]. by destruct (h !! r).
Qed.

(** The loop of [componentWillUnmount]: every subscription is marked unused
    and its store is told to drop it, in registry order. *)
Lemma unmount_each (xs : list nat) w :
  foldl (λ w r,
           match heap w !! r with
           | Some subscription =>
               emit (removeAutoSubscription (store subscription) r)
                 (with_heap (alter (set_used false) r (heap w)) w)
           | None => w
           end) w xs =
  emits (omap (remove_at (heap w)) xs)
    (with_heap (foldl (λ h r, alter (set_used false) r h) (heap w) xs) w).
Proof.
  revert w. induction xs as [|a xs IH]; intros w; simpl.
  - rewrite emits_nil. by destruct w.
  - rewrite IH. csimpl. unfold remove_at at 2.
    destruct (heap w !! a) as [sub|] eqn:Ha; simpl.
    + rewrite emits_cons. f_equal.
      apply omap_ext_elem. intros r _. apply remove_at_alter.
    + by rewrite (alter_None _ _ _ Ha).
Qed.

Lemma unmounted_callback build w :
  _isMounted w = false →
  _onAutoSubscriptionChanged Key_All instr build w = (Normal tt, w).
Proof.
  intros Hm.
  unfold _onAutoSubscriptionChanged, _onAutoSubscriptionChangedUnbound,
    isComponentMounted, bind, get, ret.
  by rewrite Hm.
Qed.

Lemma unmounted_notifications (builds : list (@BuildState Props Value T)) w :
  _isMounted w = false →
  lifecycle Key_All cmp instr (StoreNotification <$> builds) w = w.
Proof.
  intros Hm. induction builds as [|b builds IH]; [done|].
  change (lifecycle Key_All cmp instr (StoreNotification <$> b :: builds) w)
    with (lifecycle Key_All cmp instr (StoreNotification <$> builds)
            (_onAutoSubscriptionChanged Key_All instr b w).2).
  by rewrite unmounted_callback.
Qed.

(** C5 (teardown).  [componentWillUnmount] leaves every subscription of
    the registry with [used = false] and its store and key untouched, calls
    [removeAutoSubscription] on the store of each, in registry order and
    nothing else, so that no store index holds any of them; it empties the
    registry and clears the mounted flag.  From then on a store notification
    through the component's callback does nothing: the instance, log
    included, is unchanged, however many notifications arrive. *)
Theorem teardown w :
  (∀ r, r ∈ _handledAutoSubscriptions w → is_used (heap (componentWillUnmount w)) r = false) ∧
  static <$> heap (componentWillUnmount w) = static <$> heap w ∧
  log (componentWillUnmount w) =
    log w ++ omap (remove_at (heap w)) (_handledAutoSubscriptions w) ∧
  (∀ r sub, r ∈ _handledAutoSubscriptions w → heap w !! r = Some sub →
            removeAutoSubscription (store sub) r ∈ log (componentWillUnmount w) ∧
            r ∉ store_index (store sub) (log (componentWillUnmount w))) ∧
  _handledAutoSubscriptions (componentWillUnmount w) = [] ∧
  _isMounted (componentWillUnmount w) = false ∧
  (∀ build, _onAutoSubscriptionChanged Key_All instr build (componentWillUnmount w) =
            (Normal tt, componentWillUnmount w)) ∧
  (∀ builds : list (@BuildState Props Value T),
     lifecycle Key_All cmp instr (StoreNotification <$> builds)
               (componentWillUnmount w) = componentWillUnmount w).
Proof.
  unfold componentWillUnmount. rewrite unmount_each. simpl.
  split; [|split; [|split; [|split; [|split; [|split; [|split]]]]]].
  - intros r Hr. by apply reset_is_used.
  - apply reset_static.
  - done.
  - intros r sub Hr Hsub.
    assert (removeAutoSubscription (store sub) r ∈
            omap (@remove_at Props Value (heap w)) (_handledAutoSubscriptions w)) as Hev.
    { apply list_elem_of_omap. exists r. split; [done|].
      unfold remove_at. by rewrite Hsub. }
    split; [apply elem_of_app; by right|].
    unfold store_index. rewrite foldl_app. apply index_removes; [|done].
    apply Forall_forall. intros e (r' & _ & He)%list_elem_of_omap.
    unfold remove_at in He. destruct (heap w !! r'); by simplify_eq/=.
  - done.
  - done.
  - intros build. by apply unmounted_callback.
  - intros builds. by apply unmounted_notifications.
Qed.

(** ** The callers of a build *)

Lemma buildInitialState_unfold build w :
  _buildInitialState Key_All instr build w =
  match _buildStateWithAutoSubscriptions Key_All instr build (props w) true w with
  | (Normal initialState, w') => (Normal (default [] initialState), w')
  | (Throw e, w') => (Throw e, w')
  end.
Proof.
  unfold _buildInitialState, bind, get, ret.
  by destruct (_buildStateWithAutoSubscriptions _ _ _ _ _ _) as [[?|?] ?].
Qed.

Lemma handleUpdate_unfold build nextProps w :
  _handleUpdate Key_All cmp instr build nextProps w =
  if cmp (props w) nextProps
  then (Normal None, emit (comparator (props w) nextProps) w)
  else
    match _buildStateWithAutoSubscriptions Key_All instr build nextProps false
            (emit (comparator (props w) nextProps) w) with
    | (Normal newState, w') =>
        (Normal (if nonempty newState then newState else None), w')
    | (Throw e, w') => (Throw e, w')
    end.
Proof.
  unfold _handleUpdate, bind, get, ret, modify.
  destruct (cmp (props w) nextProps); simpl; [done|].
  destruct (_buildStateWithAutoSubscriptions _ _ _ _ _ _) as [[s|?] ?]; [|done].
  by destruct (nonempty s).
Qed.

Lemma onAutoSubscriptionChanged_unfold build w :
  _onAutoSubscriptionChanged Key_All instr build w =
  if _isMounted w then
    match _buildStateWithAutoSubscriptions Key_All instr build (props w) false w with
    | (Normal newState, w') =>
        (Normal tt,
         if nonempty newState then emit (setState (default [] newState)) w' else w')
    | (Throw e, w') => (Throw e, w')
    end
  else (Normal tt, w).
Proof.
  unfold _onAutoSubscriptionChanged, _onAutoSubscriptionChangedUnbound,
    isComponentMounted, bind, get, ret, modify.
  destruct (_isMounted w); simpl; [|done].
  destruct (_buildStateWithAutoSubscriptions _ _ _ _ _ _) as [[s|?] ?]; [|done].
  by destruct s as [[|? ?]|].
Qed.

Lemma getDerivedStateFromProps_unfold build nextProps w :
  getDerivedStateFromProps Key_All cmp instr build nextProps (Some (Some tt)) w =
  if _isMounted w then _handleUpdate Key_All cmp instr build nextProps w
  else
    match _buildInitialState Key_All instr build w with
    | (Normal s, w') => (Normal (Some s), w')
    | (Throw e, w') => (Throw e, w')
    end.
Proof.
  unfold getDerivedStateFromProps, bind, get, ret.
  destruct (_isMounted w); simpl; [done|].
  by destruct (_buildInitialState _ _ _ _) as [[?|?] ?].
Qed.

(** ** What a build may touch *)

Lemma utils_remove_frame (xs : list nat) w :
  ∃ es, (utils_remove xs sweep_predicate w).2 = emits es w ∧
        Forall (λ e, is_bookkeeping e = true) es.
Proof.
  revert w. induction xs as [|a xs IH]; intros w; simpl.
  - exists []. by rewrite emits_nil.
  - destruct (sweep_predicate a w) as [b w1] eqn:Hp.
    destruct (IH w1) as (es & Hes & Hall).
    destruct (utils_remove xs sweep_predicate w1) as [rest w2]. simpl in *.
    unfold sweep_predicate in Hp.
    destruct (heap w !! a) as [sub|]; [|injection Hp as <- <-; eauto].
    destruct (_shouldRemoveAndCleanupAutoSubscription sub);
      injection Hp as <- <-; [|eauto].
    exists (removeAutoSubscription (store sub) a :: es).
    rewrite emits_cons. split; [done|]. by apply Forall_cons.
Qed.

Lemma sweep_frame w :
  ∃ es kept, sweep w = with_subscriptions kept (emits es w) ∧
             Forall (λ e, is_bookkeeping e = true) es.
Proof.
  unfold sweep. destruct (utils_remove_frame (_handledAutoSubscriptions w) w)
    as (es & Hes & Hall).
  destruct (utils_remove _ _ w) as [kept w']. simpl in Hes. subst w'. eauto.
Qed.

(** A build adds to the log the invocation of the build function, between
    store calls and instrumentation hooks, and touches neither the mounted
    flag nor the props. *)
Lemma build_frame build p ib w :
  ∃ es,
    log (_buildStateWithAutoSubscriptions Key_All instr build p ib w).2 =
      log w ++ instrumented instr beginBuildState ++ [buildState p ib] ++ es ∧
    Forall (λ e, is_bookkeeping e = true) es ∧
    _isMounted (_buildStateWithAutoSubscriptions Key_All instr build p ib w).2 =
      _isMounted w ∧
    props (_buildStateWithAutoSubscriptions Key_All instr build p ib w).2 = props w.
Proof.
  rewrite build_unfold.
  destruct (after_reads_registry build p ib w) as (news & _ & _ & Hl).
  destruct (after_reads_frame build p ib w) as [Hm Hp].
  assert (Forall (λ e : @Event Props Value, is_bookkeeping e = true)
            (omap (track_at (heap (after_reads Key_All instr build p ib w))) news))
    as Htracks.
  { apply Forall_forall. intros e (r & _ & He)%list_elem_of_omap.
    unfold track_at in He. destruct (_ !! r); by simplify_eq/=. }
  destruct (finish (build p ib)); simpl.
  - rewrite instrument_emits.
    destruct (sweep_frame (emits (instrumented instr endBuildState)
                (after_reads Key_All instr build p ib w))) as (es & kept & -> & Hes).
    simpl. rewrite Hl. eexists. rewrite <- !app_assoc. split; [done|].
    split; [|done]. apply Forall_app. split; [done|]. apply Forall_app.
    split; [|done]. unfold instrumented. destruct instr; [|done].
    by apply Forall_singleton.
  - rewrite Hl. eexists. by split.
Qed.

(** ** Skipped updates *)

Lemma frozen (evs : list (@Lifecycle Props Value T)) w :
  (∀ a b, cmp a b = true) → _isMounted w = true →
  forallb prop_change evs = true →
  heap (lifecycle Key_All cmp instr evs w) = heap w ∧
  _handledAutoSubscriptions (lifecycle Key_All cmp instr evs w) =
    _handledAutoSubscriptions w ∧
  _isMounted (lifecycle Key_All cmp instr evs w) = true ∧
  ∃ es, log (lifecycle Key_All cmp instr evs w) = log w ++ es ∧
        Forall (λ e, is_comparator e = true) es.
Proof.
  intros Hcmp. revert w. induction evs as [|ev evs IH]; intros w Hm Hevs.
  - simpl. do 3 (split; [done|]). exists []. by rewrite app_nil_r.
  - simpl in Hevs. apply andb_true_iff in Hevs as [Hev Hevs].
    change (lifecycle Key_All cmp instr (ev :: evs) w)
      with (lifecycle Key_All cmp instr evs (step Key_All cmp instr w ev)).
    destruct ev as [build nextProps| | |build|p]; try done; unfold step.
    + rewrite getDerivedStateFromProps_unfold, Hm, handleUpdate_unfold, Hcmp.
      simpl. destruct (IH (emit (comparator (props w) nextProps) w) Hm Hevs)
        as (-> & -> & -> & es & -> & Hes).
      do 3 (split; [done|]). simpl. eexists. rewrite <- app_assoc.
      split; [done|]. by apply Forall_cons.
    + destruct (IH (with_props p w) Hm Hevs) as (-> & -> & -> & es & -> & Hes).
      do 3 (split; [done|]). eauto.
Qed.

(** C6 (skipped update).  When the comparator judges the current and the
    next props equal, [_handleUpdate] returns [null] and its only effect is
    the evaluation of the comparator: the build function is not invoked, no
    read is handled, no subscription object, registry entry or store call
    is made.  With a comparator that always reports equal, no sequence of
    prop-change evaluations on a mounted component changes the subscription
    objects or the registry, and the log gains comparator evaluations only. *)
Theorem update_skipped build nextProps w :
  cmp (props w) nextProps = true →
  _handleUpdate Key_All cmp instr build nextProps w =
    (Normal None, emit (comparator (props w) nextProps) w) ∧
  ((∀ a b, cmp a b = true) → _isMounted w = true →
   ∀ evs : list (@Lifecycle Props Value T), forallb prop_change evs = true →
     heap (lifecycle Key_All cmp instr evs w) = heap w ∧
     _handledAutoSubscriptions (lifecycle Key_All cmp instr evs w) =
       _handledAutoSubscriptions w ∧
     _isMounted (lifecycle Key_All cmp instr evs w) = true ∧
     ∃ es, log (lifecycle Key_All cmp instr evs w) = log w ++ es ∧
           Forall (λ e, is_comparator e = true) es).
Proof.
  intros Heq. split.
  - by rewrite handleUpdate_unfold, Heq.
  - intros Hcmp Hm evs Hevs. by apply frozen.
Qed.

(** ** A build function that throws *)

Lemma handle_reads_news_used w rs r :
  valid w →
  r ∈ _handledAutoSubscriptions (foldl (handle Key_All) w rs) →
  r ∉ _handledAutoSubscriptions w →
  is_used (heap (foldl (handle Key_All) w rs)) r = true.
Proof.
  revert w. induction rs as [|rd rs IH]; intros w Hv Hin Hout; simpl in *; [done|].
  pose proof (valid_extends _ _ Hv (handle_extends w rd)) as Hv1.
  destruct (decide (r ∈ _handledAutoSubscriptions (handle Key_All w rd)))
    as [Hin1|Hout1]; [|by apply IH].
  destruct (handle_reads_used _ rs Hv1) as [_ H2]. apply H2. left.
  destruct (first_match Key_All w rd) as [r0|] eqn:Hf.
  - rewrite (handle_found _ _ _ Hf) in Hin1. done.
  - rewrite (handle_new _ _ Hf) in Hin1 |- *. simpl in *.
    apply elem_of_app in Hin1 as [? | ->%list_elem_of_singleton]; [done|].
    rewrite is_used_snoc. by rewrite decide_True.
Qed.

(** C7 (build fault).  When the build function throws, the build ends with
    that exception and the instance stays as the handled reads left it: the
    sweep does not run.  The registry is the old one followed by the
    subscriptions created before the fault, each used and registered with
    its store; the log gained the instrumentation hook, the invocation and
    those registrations, and no [removeAutoSubscription]; an older
    subscription is used exactly when a read before the fault had it as
    first match, and stays in the registry otherwise too.
    [_buildInitialState], [_handleUpdate], [getDerivedStateFromProps] and the
    store callback pass the exception on with the same instance. *)
Theorem build_fault build p ib w e :
  wf w → finish (build p ib) = Throw e →
  _buildStateWithAutoSubscriptions Key_All instr build p ib w =
    (Throw e, after_reads Key_All instr build p ib w) ∧
  (∃ news,
     _handledAutoSubscriptions (after_reads Key_All instr build p ib w) =
       _handledAutoSubscriptions w ++ news ∧
     log (after_reads Key_All instr build p ib w) =
       log w ++ instrumented instr beginBuildState ++ [buildState p ib] ++
       omap (track_at (heap (after_reads Key_All instr build p ib w))) news ∧
     ∀ r, r ∈ news →
          length (heap w) ≤ r ∧
          is_used (heap (after_reads Key_All instr build p ib w)) r = true) ∧
  static <$> heap w `prefix_of`
    static <$> heap (after_reads Key_All instr build p ib w) ∧
  (∀ r, r ∈ _handledAutoSubscriptions w →
        is_used (heap (after_reads Key_All instr build p ib w)) r = true ↔
        ∃ rd, rd ∈ reads (build p ib) ∧
              first_match Key_All (after_reads Key_All instr build p ib w) rd = Some r) ∧
  (p = props w → ib = true →
   _buildInitialState Key_All instr build w =
     (Throw e, after_reads Key_All instr build p ib w) ∧
   (_isMounted w = false →
    ∀ nextProps,
      getDerivedStateFromProps Key_All cmp instr build nextProps (Some (Some tt)) w =
        (Throw e, after_reads Key_All instr build p ib w))) ∧
  (ib = false → cmp (props w) p = false →
   _handleUpdate Key_All cmp instr build p w =
     (Throw e, after_reads Key_All instr build p ib
                 (emit (comparator (props w) p) w)) ∧
   (_isMounted w = true →
    getDerivedStateFromProps Key_All cmp instr build p (Some (Some tt)) w =
      (Throw e, after_reads Key_All instr build p ib
                  (emit (comparator (props w) p) w)))) ∧
  (p = props w → ib = false → _isMounted w = true →
   _onAutoSubscriptionChanged Key_All instr build w =
     (Throw e, after_reads Key_All instr build p ib w)).
Proof.
  intros Hw Hfin. pose proof Hw as [Hv _].
  pose proof (build_throws build p ib w e Hfin) as Hb.
  split; [done|]. split; [|split; [|split; [|split; [|split]]]].
  - destruct (after_reads_registry build p ib w) as (news & HR & Hn & Hl).
    exists news. split; [done|]. split; [done|]. intros r Hr.
    rewrite Forall_forall in Hn. pose proof (Hn r Hr) as [Hge _].
    split; [done|].
    apply (handle_reads_news_used (before_reads instr p ib w)).
    + by apply valid_before_reads.
    + change (r ∈ _handledAutoSubscriptions (after_reads Key_All instr build p ib w)).
      rewrite HR. apply elem_of_app. by right.
    + rewrite before_reads_spec. simpl. intros Hin.
      unfold valid in Hv. rewrite Forall_forall in Hv. apply Hv in Hin. lia.
  - apply after_reads_static.
  - intros r Hr. apply after_reads_used; [done|].
    destruct (after_reads_registry build p ib w) as (news & -> & _).
    apply elem_of_app. by left.
  - intros -> ->. rewrite buildInitialState_unfold, Hb. split; [done|].
    intros Hm nextProps.
    by rewrite getDerivedStateFromProps_unfold, Hm, buildInitialState_unfold, Hb.
  - intros -> Hne.
    pose proof (build_throws build p false (emit (comparator (props w) p) w) e Hfin)
      as Hb'.
    rewrite handleUpdate_unfold, Hne, Hb'. split; [done|]. intros Hm.
    by rewrite getDerivedStateFromProps_unfold, Hm, handleUpdate_unfold, Hne, Hb'.
  - intros -> -> Hm. by rewrite onAutoSubscriptionChanged_unfold, Hm, Hb.
Qed.

(** ** Initial builds over a lifetime *)

Lemma initial_builds_app (l1 l2 : list (@Event Props Value)) :
  initial_builds (l1 ++ l2) = initial_builds l1 + initial_builds l2.
Proof. unfold initial_builds. by rewrite filter_app, length_app. Qed.

Lemma initial_builds_bookkeeping (es : list (@Event Props Value)) :
  Forall (λ e, is_bookkeeping e = true) es → initial_builds es = 0.
Proof.
  intros Hes. unfold initial_builds. rewrite filter_none; [done|].
  rewrite Forall_forall in Hes. intros e He%Hes. by destruct e.
Qed.

Lemma initial_builds_cons (e : @Event Props Value) es :
  initial_builds (e :: es) =
  (if is_initial_build e then 1 else 0) + initial_builds es.
Proof.
  unfold initial_builds. rewrite filter_cons.
  by destruct (is_initial_build e).
Qed.

Lemma initial_builds_instrumented :
  initial_builds (@instrumented Props Value instr beginBuildState) = 0.
Proof. unfold instrumented. by destruct instr. Qed.

Ltac count_initial_builds Hes :=
  rewrite ?initial_builds_app, ?initial_builds_cons, ?initial_builds_instrumented,
    ?(initial_builds_bookkeeping _ Hes);
  simpl; try done.

(** What one lifecycle event adds to the log, and what it does to the
    mounted flag. *)
Lemma step_log (ev : @Lifecycle Props Value T) w :
  ∃ es,
    log (step Key_All cmp instr w ev) = log w ++ es ∧
    initial_builds es =
      match ev with
      | GetDerivedStateFromProps _ _ => if _isMounted w then 0 else 1
      | _ => 0
      end ∧
    _isMounted (step Key_All cmp instr w ev) =
      match ev with
      | ComponentDidMount => true
      | ComponentWillUnmount => false
      | _ => _isMounted w
      end.
Proof.
  destruct ev as [build nextProps| | |build|p]; unfold step.
  - rewrite getDerivedStateFromProps_unfold.
    destruct (_isMounted w) eqn:Hm.
    + rewrite handleUpdate_unfold. destruct (cmp (props w) nextProps).
      * exists [comparator (props w) nextProps]. simpl. by rewrite Hm.
      * destruct (build_frame build nextProps false
                    (emit (comparator (props w) nextProps) w))
          as (es & Hl & Hes & Hmf & _).
        destruct (_buildStateWithAutoSubscriptions _ _ _ _ _ _) as [[?|?] w'];
          simpl in *; rewrite Hl, Hmf, Hm, <- app_assoc;
          (eexists; split; [done|]; split; [|done]);
          count_initial_builds Hes.
    + rewrite buildInitialState_unfold.
      destruct (build_frame build (props w) true w) as (es & Hl & Hes & Hmf & _).
      destruct (_buildStateWithAutoSubscriptions _ _ _ _ _ _) as [[?|?] w'];
        simpl in *; rewrite Hl, Hmf, Hm;
        (eexists; split; [done|]; split; [|done]);
        count_initial_builds Hes.
  - exists []. by rewrite app_nil_r.
  - unfold componentWillUnmount. rewrite unmount_each. simpl.
    eexists. split; [done|]. split; [|done].
    apply initial_builds_bookkeeping, Forall_forall.
    intros e (r & _ & He)%list_elem_of_omap.
    unfold remove_at in He. destruct (heap w !! r); by simplify_eq/=.
  - rewrite onAutoSubscriptionChanged_unfold.
    destruct (_isMounted w) eqn:Hm; [|exists []; by rewrite app_nil_r].
    destruct (build_frame build (props w) false w) as (es & Hl & Hes & Hmf & _).
    destruct (_buildStateWithAutoSubscriptions _ _ _ _ _ _) as [[s|?] w'];
      simpl in *.
    + destruct (nonempty s); simpl; rewrite Hl, Hmf, ?Hm, <- ?app_assoc;
        (eexists; split; [done|]; split; [|done]);
        count_initial_builds Hes.
    + rewrite Hl, Hmf, Hm. eexists. split; [done|]. split; [|done].
      count_initial_builds Hes.
  - exists []. by rewrite app_nil_r.
Qed.

Lemma lifecycle_log (evs : list (@Lifecycle Props Value T)) w :
  ∃ es, log (lifecycle Key_All cmp instr evs w) = log w ++ es ∧
        initial_builds es = unmounted_evaluations (_isMounted w) evs.
Proof.
  revert w. induction evs as [|ev evs IH]; intros w.
  - exists []. by rewrite app_nil_r.
  - change (lifecycle Key_All cmp instr (ev :: evs) w)
      with (lifecycle Key_All cmp instr evs (step Key_All cmp instr w ev)).
    destruct (step_log ev w) as (es1 & Hl1 & Hn1 & Hm1).
    destruct (IH (step Key_All cmp instr w ev)) as (es2 & -> & Hn2).
    exists (es1 ++ es2). rewrite Hl1, app_assoc. split; [done|].
    rewrite initial_builds_app, Hn1, Hn2, Hm1.
    destruct ev; simpl; try done; by destruct (_isMounted w).
Qed.

Lemma after_unmount_evaluations (evs : list (@Lifecycle Props Value T)) m :
  forallb after_unmount evs = true → unmounted_evaluations m evs = 0.
Proof.
  induction evs as [|ev evs IH]; [done|]. simpl.
  intros [Hev Hevs]%andb_true_iff. destruct ev; try done; by apply IH.
Qed.

Lemma while_mounted_evaluations (evs : list (@Lifecycle Props Value T)) :
  while_mounted evs = true → unmounted_evaluations true evs = 0.
Proof.
  induction evs as [|ev evs IH]; [done|]. simpl.
  destruct ev; try done; try apply IH. apply after_unmount_evaluations.
Qed.

(** C8 (initial build), amended.  Over any sequence of lifecycle events on
    a constructed component, the initial builds are the evaluations of
    [getDerivedStateFromProps] that find the component not mounted, one
    each.  When the host evaluates [getDerivedStateFromProps] once, then
    mounts the component, and does not evaluate it again after unmounting,
    there is exactly one initial build, and it comes first: only the
    instrumentation hook precedes it in the log, so every comparator
    evaluation comes after it. *)
Theorem initial_builds_counted (evs : list (@Lifecycle Props Value T)) (p : Props) :
  initial_builds (log (lifecycle Key_All cmp instr evs (constructor p))) =
    unmounted_evaluations false evs ∧
  (hosted evs = true →
   ∃ post,
     log (lifecycle Key_All cmp instr evs (constructor p)) =
       instrumented instr beginBuildState ++ buildState p true :: post ∧
     initial_builds post = 0).
Proof.
  split.
  - destruct (lifecycle_log evs (constructor p)) as (es & -> & Hn). by simpl.
  - destruct evs as [|[build nextProps| | | |] [|[| | | |] evs]]; try done.
    intros Hevs. change (while_mounted evs = true) in Hevs.
    change (lifecycle Key_All cmp instr
              (GetDerivedStateFromProps build nextProps :: ComponentDidMount :: evs)
              (constructor p))
      with (lifecycle Key_All cmp instr evs
              (componentDidMount
                 (getDerivedStateFromProps Key_All cmp instr build nextProps
                    (Some (Some tt)) (constructor p)).2)).
    rewrite getDerivedStateFromProps_unfold, buildInitialState_unfold. simpl.
    destruct (build_frame build p true (constructor p)) as (es & Hl & Hes & _).
    destruct (lifecycle_log evs
                (componentDidMount
                   (_buildStateWithAutoSubscriptions Key_All instr build p true
                      (constructor p)).2)) as (es' & Hl' & Hn').
    simpl in Hl', Hn'. rewrite Hl in Hl'. simpl in Hl'.
    rewrite (while_mounted_evaluations _ Hevs) in Hn'.
    exists (es ++ es').
    destruct (_buildStateWithAutoSubscriptions _ _ _ _ _ _) as [[?|?] w'];
      simpl in *; rewrite Hl', <- !app_assoc;
      (split; [done|]);
      by rewrite initial_builds_app, (initial_builds_bookkeeping es Hes), Hn'.
Qed.

(** ** Builds that produce nothing *)

Lemma nonempty_false (d : option (@Dictionary Value)) :
  nonempty d = false → default [] d = [].
Proof. by destruct d as [[|? ?]|]. Qed.

(** A build of a component without subscriptions whose build function is
    the one of [ComponentBase]. *)
Lemma default_build p ib w :
  heap w = [] → _handledAutoSubscriptions w = [] →
  _buildStateWithAutoSubscriptions Key_All instr (@_buildState Props Value T) p ib w =
  (Normal None,
   emits (instrumented instr beginBuildState ++ [buildState p ib] ++
          instrumented instr endBuildState) w).
Proof.
  intros Hh HR. rewrite build_unfold. simpl. f_equal.
  unfold after_reads, before_reads, reset_used. simpl.
  rewrite !instrument_emits, HR. simpl.
  unfold sweep. simpl. rewrite HR. simpl.
  apply world_eq; simpl; try done. by rewrite <- !app_assoc.
Qed.

Lemma step_default (ev : @Lifecycle Props Value T) w :
  not_overridden ev → heap w = [] → _handledAutoSubscriptions w = [] →
  heap (step Key_All cmp instr w ev) = [] ∧
  _handledAutoSubscriptions (step Key_All cmp instr w ev) = [] ∧
  ∃ es, log (step Key_All cmp instr w ev) = log w ++ es ∧
        Forall (λ e, is_store_call e = false) es.
Proof.
  intros Hev Hh HR.
  assert (∀ p ib, Forall (λ e : @Event Props Value, is_store_call e = false)
            (instrumented instr beginBuildState ++ [buildState p ib] ++
             instrumented instr endBuildState)) as Hes.
  { intros p ib. unfold instrumented. destruct instr; repeat constructor. }
  destruct ev as [build nextProps| | |build|p]; unfold step; simpl in Hev.
  - subst build. rewrite getDerivedStateFromProps_unfold.
    destruct (_isMounted w).
    + rewrite handleUpdate_unfold. destruct (cmp (props w) nextProps).
      * simpl. do 2 (split; [done|]). eexists. split; [done|].
        by repeat constructor.
      * rewrite default_build by done. simpl. do 2 (split; [done|]).
        eexists. rewrite <- app_assoc. split; [done|].
        apply Forall_cons. split; [done|]. apply Hes.
    + rewrite buildInitialState_unfold, default_build by done. simpl.
      do 2 (split; [done|]). eauto.
  - simpl. do 2 (split; [done|]). exists []. by rewrite app_nil_r.
  - unfold componentWillUnmount. rewrite HR. simpl.
    do 2 (split; [done|]). exists []. by rewrite app_nil_r.
  - subst build. rewrite onAutoSubscriptionChanged_unfold.
    destruct (_isMounted w).
    + rewrite default_build by done. simpl. do 2 (split; [done|]). eauto.
    + do 2 (split; [done|]). exists []. by rewrite app_nil_r.
  - simpl. do 2 (split; [done|]). exists []. by rewrite app_nil_r.
Qed.

Lemma lifecycle_default (evs : list (@Lifecycle Props Value T)) w :
  Forall not_overridden evs → heap w = [] → _handledAutoSubscriptions w = [] →
  heap (lifecycle Key_All cmp instr evs w) = [] ∧
  _handledAutoSubscriptions (lifecycle Key_All cmp instr evs w) = [] ∧
  ∃ es, log (lifecycle Key_All cmp instr evs w) = log w ++ es ∧
        Forall (λ e, is_store_call e = false) es.
Proof.
  revert w. induction evs as [|ev evs IH]; intros w Hevs Hh HR.
  - do 2 (split; [done|]). exists []. by rewrite app_nil_r.
  - apply Forall_cons in Hevs as [Hev Hevs].
    change (lifecycle Key_All cmp instr (ev :: evs) w)
      with (lifecycle Key_All cmp instr evs (step Key_All cmp instr w ev)).
    destruct (step_default ev w Hev Hh HR) as (Hh1 & HR1 & es1 & Hl1 & Hes1).
    destruct (IH _ Hevs Hh1 HR1) as (-> & -> & es2 & -> & Hes2).
    do 2 (split; [done|]). exists (es1 ++ es2). rewrite Hl1, app_assoc.
    split; [done|]. by apply Forall_app.
Qed.

(** C10 (empty draft).  Let the build function return [undefined] or an
    object without keys.  As an initial build the result becomes the empty
    object, also through [getDerivedStateFromProps].  As a rebuild,
    [_handleUpdate] returns [null] whatever the comparator says, and the
    store callback ends without calling [setState]: the instance is as the
    build left it.  The [_buildState] of [ComponentBase] reads no store and
    returns [undefined]; a component that does not override it gets the
    empty object as initial state, and over any lifecycle it holds no
    subscription object, an empty registry, and calls no store. *)
Theorem empty_draft build w d :
  nonempty d = false →
  (finish (build (props w) true) = Normal d →
   (_buildInitialState Key_All instr build w).1 = Normal [] ∧
   (_isMounted w = false →
    ∀ nextProps,
      (getDerivedStateFromProps Key_All cmp instr build nextProps
         (Some (Some tt)) w).1 = Normal (Some []))) ∧
  (∀ nextProps, finish (build nextProps false) = Normal d →
     (_handleUpdate Key_All cmp instr build nextProps w).1 = Normal None ∧
     (_isMounted w = true →
      (getDerivedStateFromProps Key_All cmp instr build nextProps
         (Some (Some tt)) w).1 = Normal None)) ∧
  (finish (build (props w) false) = Normal d →
   _onAutoSubscriptionChanged Key_All instr build w =
   (Normal tt,
    if _isMounted w
    then (_buildStateWithAutoSubscriptions Key_All instr build (props w) false w).2
    else w)) ∧
  (∀ p ib, @_buildState Props Value T p ib = {| reads := []; finish := Normal None |}) ∧
  (∀ p nextProps,
     getDerivedStateFromProps Key_All cmp instr (@_buildState Props Value T) nextProps
       (Some (Some tt)) (constructor p) =
     (Normal (Some []),
      emits (instrumented instr beginBuildState ++ [buildState p true] ++
             instrumented instr endBuildState) (constructor p))) ∧
  (∀ (evs : list (@Lifecycle Props Value T)) p,
     Forall not_overridden evs →
     heap (lifecycle Key_All cmp instr evs (constructor p)) = [] ∧
     _handledAutoSubscriptions (lifecycle Key_All cmp instr evs (constructor p)) = [] ∧
     Forall (λ e, is_store_call e = false)
       (log (lifecycle Key_All cmp instr evs (constructor p)))).
Proof.
  intros Hd. split; [|split; [|split; [|split; [|split]]]].
  - intros Hfin.
    assert ((_buildInitialState Key_All instr build w).1 = Normal []) as Hi.
    { rewrite buildInitialState_unfold, build_unfold, Hfin. simpl.
      by rewrite nonempty_false. }
    split; [done|]. intros Hm nextProps.
    rewrite getDerivedStateFromProps_unfold, Hm.
    destruct (_buildInitialState Key_All instr build w) as [[a|e] w0];
      simpl in *; [by injection Hi as ->|done].
  - intros nextProps Hfin.
    assert ((_handleUpdate Key_All cmp instr build nextProps w).1 = Normal None)
      as Hu.
    { rewrite handleUpdate_unfold. destruct (cmp (props w) nextProps); [done|].
      rewrite build_unfold, Hfin. simpl. by rewrite Hd. }
    split; [done|]. intros Hm. by rewrite getDerivedStateFromProps_unfold, Hm.
  - intros Hfin. rewrite onAutoSubscriptionChanged_unfold.
    destruct (_isMounted w); [|done].
    rewrite build_unfold, Hfin. simpl. by rewrite Hd.
  - done.
  - intros p nextProps.
    rewrite getDerivedStateFromProps_unfold, buildInitialState_unfold.
    change (_isMounted (constructor p)) with false.
    change (props (constructor p)) with p. cbv iota.
    by rewrite default_build.
  - intros evs p Hevs.
    destruct (lifecycle_default evs (constructor p) Hevs eq_refl eq_refl)
      as (-> & -> & es & -> & Hes). done.
Qed.

(** ** The invariant over a lifetime *)

Lemma wf_step (ev : @Lifecycle Props Value T) w :
  wf w → wf (step Key_All cmp instr w ev).
Proof.
  intros Hw. destruct ev as [build nextProps| | |build|p]; unfold step.
  - rewrite getDerivedStateFromProps_unfold. destruct (_isMounted w).
    + rewrite handleUpdate_unfold. destruct (cmp (props w) nextProps); [done|].
      pose proof (wf_build build nextProps false _
                    (wf_emit (comparator (props w) nextProps) w Hw)) as Hb.
      by destruct (_buildStateWithAutoSubscriptions _ _ _ _ _ _) as [[?|?] ?].
    + rewrite buildInitialState_unfold.
      pose proof (wf_build build (props w) true w Hw) as Hb.
      by destruct (_buildStateWithAutoSubscriptions _ _ _ _ _ _) as [[?|?] ?].
  - done.
  - split; [apply Forall_nil_2|apply NoDup_nil_2].
  - rewrite onAutoSubscriptionChanged_unfold. destruct (_isMounted w); [|done].
    pose proof (wf_build build (props w) false w Hw) as Hb.
    destruct (_buildStateWithAutoSubscriptions _ _ _ _ _ _) as [[s|?] ?]; [|done].
    simpl in *. by destruct (nonempty s).
  - done.
Qed.

(** Every instance a component can be in between two lifecycle events is
    well formed. *)
Lemma wf_lifecycle (evs : list (@Lifecycle Props Value T)) (p : Props) :
  wf (lifecycle Key_All cmp instr evs (constructor p)).
Proof.
  assert (∀ w, wf w → wf (lifecycle Key_All cmp instr evs w)) as Hgen.
  { induction evs as [|ev evs IH]; intros w Hw; [done|].
    change (lifecycle Key_All cmp instr (ev :: evs) w)
      with (lifecycle Key_All cmp instr evs (step Key_All cmp instr w ev)).
    by apply IH, wf_step. }
  apply Hgen, wf_constructor.
Qed.

(** ** Store calls balanced against the registry *)

Lemma calls_for_app r (l1 l2 : list (@Event Props Value)) :
  calls_for r (l1 ++ l2) = calls_for r l1 ++ calls_for r l2.
Proof. apply omap_app. Qed.

Lemma calls_for_none r (es : list (@Event Props Value)) :
  Forall (λ e, call_for r e = None) es → calls_for r es = [].
Proof.
  induction es as [|e es IH]; [done|]. intros [He Hes]%Forall_cons.
  unfold calls_for in *. csimpl. rewrite He. by apply IH.
Qed.

Lemma calls_for_instrumented r (e : @Event Props Value) :
  is_store_call e = false → calls_for r (instrumented instr e) = [].
Proof.
  intros He. apply calls_for_none. unfold instrumented.
  destruct instr; [|done]. apply Forall_singleton. by destruct e.
Qed.

Lemma calls_for_tracks h (xs : list nat) r :
  NoDup xs →
  calls_for r (omap (@track_at Props Value h) xs) =
  if decide (r ∈ xs)
  then match store_at h r with Some st => [(true, st)] | None => [] end
  else [].
Proof.
  induction xs as [|a xs IH]; [done|]. intros [Ha Hxs]%NoDup_cons.
  unfold calls_for, store_at in *. csimpl. unfold track_at at 1.
  destruct (decide (r = a)) as [->|Hne].
  - rewrite decide_True by apply list_elem_of_here.
    rewrite decide_False in IH by done.
    destruct (h !! a) as [sub|]; csimpl; [|by apply IH].
    rewrite decide_True by done. by rewrite IH.
  - destruct (h !! a) as [sub|]; csimpl.
    + rewrite decide_False by done. rewrite IH by done.
      destruct (decide (r ∈ xs)) as [Hin|Hout].
      * rewrite decide_True; [done|]. by apply list_elem_of_further.
      * rewrite decide_False; [done|]. by intros [?|?]%elem_of_cons.
    + rewrite IH by done.
      destruct (decide (r ∈ xs)) as [Hin|Hout].
      * rewrite decide_True; [done|]. by apply list_elem_of_further.
      * rewrite decide_False; [done|]. by intros [?|?]%elem_of_cons.
Qed.

Lemma calls_for_removes h (xs : list nat) r :
  NoDup xs →
  calls_for r (omap (@remove_at Props Value h) xs) =
  if decide (r ∈ xs)
  then match store_at h r with Some st => [(false, st)] | None => [] end
  else [].
Proof.
  induction xs as [|a xs IH]; [done|]. intros [Ha Hxs]%NoDup_cons.
  unfold calls_for, store_at in *. csimpl. unfold remove_at at 1.
  destruct (decide (r = a)) as [->|Hne].
  - rewrite decide_True by apply list_elem_of_here.
    rewrite decide_False in IH by done.
    destruct (h !! a) as [sub|]; csimpl; [|by apply IH].
    rewrite decide_True by done. by rewrite IH.
  - destruct (h !! a) as [sub|]; csimpl.
    + rewrite decide_False by done. rewrite IH by done.
      destruct (decide (r ∈ xs)) as [Hin|Hout].
      * rewrite decide_True; [done|]. by apply list_elem_of_further.
      * rewrite decide_False; [done|]. by intros [?|?]%elem_of_cons.
    + rewrite IH by done.
      destruct (decide (r ∈ xs)) as [Hin|Hout].
      * rewrite decide_True; [done|]. by apply list_elem_of_further.
      * rewrite decide_False; [done|]. by intros [?|?]%elem_of_cons.
Qed.

Lemma store_at_static h h' r :
  static <$> h = static <$> h' → store_at h r = store_at h' r.
Proof.
  intros Hs. pose proof (f_equal (λ x, x !! r) Hs) as Hr. simpl in Hr.
  rewrite !list_lookup_fmap in Hr. unfold store_at.
  destruct (h !! r) as [sub|], (h' !! r) as [sub'|]; try done. simpl in *.
  apply (inj Some) in Hr. destruct sub, sub'. unfold static in Hr.
  by simplify_eq/=.
Qed.

Lemma valid_lt w r : valid w → r ∈ _handledAutoSubscriptions w → r < length (heap w).
Proof. unfold valid. rewrite Forall_forall. auto. Qed.

Lemma balanced_handle w rd : balanced w → balanced (handle Key_All w rd).
Proof.
  intros (Hnd & Hv & Hc).
  destruct (first_match Key_All w rd) as [r0|] eqn:Hf.
  - rewrite (handle_found _ _ _ Hf). split; [done|]. split.
    + unfold valid in *. simpl. by rewrite length_alter.
    + intros r. simpl.
      rewrite <- (store_at_static (heap w)) by (by rewrite static_alter).
      apply Hc.
  - rewrite (handle_new _ _ Hf). split; [|split]; simpl.
    + apply NoDup_app. split; [done|]. split; [|apply NoDup_singleton].
      intros x Hx ->%list_elem_of_singleton. apply (valid_lt _ _ Hv) in Hx. lia.
    + unfold valid in *. simpl. apply Forall_app. split.
      * eapply Forall_impl; [exact Hv|]. simpl. intros x Hx.
        rewrite length_app. lia.
      * apply Forall_singleton. rewrite length_app. simpl. lia.
    + intros r. rewrite calls_for_app, Hc. unfold calls_for at 1. csimpl.
      unfold store_at.
      destruct (decide (length (heap w) = r)) as [<-|Hne].
      * rewrite (lookup_ge_None_2 (heap w)) by lia.
        rewrite (list_lookup_middle (heap w) [] _ _ eq_refl). simpl.
        rewrite decide_True; [done|]. apply elem_of_app. right.
        apply list_elem_of_here.
      * rewrite app_nil_r. destruct (decide (r < length (heap w))) as [Hlt|Hge].
        -- rewrite lookup_app_l by done.
           destruct (heap w !! r); simpl; [|done].
           destruct (decide (r ∈ _handledAutoSubscriptions w)) as [Hin|Hout].
           ++ rewrite decide_True; [done|]. apply elem_of_app. by left.
           ++ rewrite decide_False; [done|].
              intros [? | ?%list_elem_of_singleton]%elem_of_app; [done|lia].
        -- rewrite (lookup_ge_None_2 (heap w)) by lia.
           rewrite lookup_ge_None_2; [done|]. rewrite length_app. simpl. lia.
Qed.

Lemma balanced_handle_reads w rs : balanced w → balanced (foldl (handle Key_All) w rs).
Proof.
  revert w. induction rs as [|rd rs IH]; intros w Hw; simpl; [done|].
  by apply IH, balanced_handle.
Qed.

Lemma call_for_other r (e : @Event Props Value) :
  is_store_call e = false → call_for r e = None.
Proof. by destruct e. Qed.

Lemma balanced_emits es w :
  Forall (λ e, is_store_call e = false) es → balanced w → balanced (emits es w).
Proof.
  intros Hes (Hnd & Hv & Hc). split; [done|]. split; [done|]. intros r. simpl.
  rewrite calls_for_app, Hc, (calls_for_none r es), app_nil_r; [done|].
  eapply Forall_impl; [exact Hes|]. intros e. apply call_for_other.
Qed.

Lemma balanced_emit e w :
  is_store_call e = false → balanced w → balanced (emit e w).
Proof.
  intros He Hw.
  assert (emit e w = emits [e] w) as -> by done.
  apply balanced_emits; [|done]. by apply Forall_singleton.
Qed.

Lemma balanced_reset_used w : balanced w → balanced (reset_used w).
Proof.
  intros (Hnd & Hv & Hc).
  pose proof (reset_static (heap w) (_handledAutoSubscriptions w)) as Hs.
  split; [done|]. split.
  - unfold valid in *. simpl. eapply Forall_impl; [exact Hv|]. simpl.
    intros x Hx. by rewrite <- (length_fmap static), Hs, length_fmap.
  - intros r. simpl. rewrite (store_at_static _ (heap w)) by done. apply Hc.
Qed.

Lemma balanced_before_reads p ib w : balanced w → balanced (before_reads instr p ib w).
Proof.
  intros Hw. rewrite before_reads_spec. apply balanced_emits.
  - apply Forall_app. split; [|by apply Forall_singleton].
    unfold instrumented. destruct instr; [|done]. by apply Forall_singleton.
  - by apply balanced_reset_used.
Qed.

Lemma balanced_after_reads build p ib w :
  balanced w → balanced (after_reads Key_All instr build p ib w).
Proof. intros Hw. by apply balanced_handle_reads, balanced_before_reads. Qed.

Lemma balanced_sweep w : balanced w → balanced (sweep w).
Proof.
  intros (Hnd & Hv & Hc). rewrite sweep_spec by done. split; [|split]; simpl.
  - by apply NoDup_filter.
  - unfold valid in *. simpl. rewrite Forall_forall in *.
    intros r [_ Hr]%list_elem_of_filter. by apply Hv.
  - intros r. rewrite calls_for_app, Hc. unfold swept.
    rewrite calls_for_removes by by apply NoDup_filter.
    destruct (store_at (heap w) r) as [st|] eqn:Hst.
    2:{ by destruct (decide _). }
    destruct (decide (r ∈ _handledAutoSubscriptions w)) as [Hin|Hout].
    + destruct (is_used (heap w) r) eqn:Hu.
      * rewrite decide_False by (intros [? _]%list_elem_of_filter; congruence).
        rewrite decide_True by (by apply list_elem_of_filter). done.
      * rewrite decide_True by (by apply list_elem_of_filter).
        rewrite decide_False by (intros [? _]%list_elem_of_filter; congruence).
        done.
    + rewrite decide_False by (by intros [_ ?]%list_elem_of_filter).
      rewrite decide_False by (by intros [_ ?]%list_elem_of_filter).
      by rewrite app_nil_r.
Qed.

(** A build, completed or not, keeps the store calls balanced. *)
Lemma balanced_build build p ib w :
  balanced w →
  balanced (_buildStateWithAutoSubscriptions Key_All instr build p ib w).2.
Proof.
  intros Hw. rewrite build_unfold.
  pose proof (balanced_after_reads build p ib w Hw) as Har.
  destruct (finish (build p ib)); simpl; [|done].
  apply balanced_sweep. rewrite instrument_emits. apply balanced_emits; [|done].
  unfold instrumented. destruct instr; [|done]. by apply Forall_singleton.
Qed.

Lemma balanced_unmount w : balanced w → balanced (componentWillUnmount w).
Proof.
  intros (Hnd & Hv & Hc). unfold componentWillUnmount. rewrite unmount_each.
  split; [apply NoDup_nil_2|]. split; [apply Forall_nil_2|]. intros r. simpl.
  rewrite (store_at_static _ (heap w)) by apply reset_static.
  rewrite calls_for_app, Hc, calls_for_removes by done.
  destruct (store_at (heap w) r) as [st|]; [|by destruct (decide _)].
  by destruct (decide (r ∈ _handledAutoSubscriptions w)).
Qed.

Lemma balanced_step (ev : @Lifecycle Props Value T) w :
  balanced w → balanced (step Key_All cmp instr w ev).
Proof.
  intros Hw. destruct ev as [build nextProps| | |build|p]; unfold step.
  - rewrite getDerivedStateFromProps_unfold. destruct (_isMounted w).
    + rewrite handleUpdate_unfold.
      pose proof (balanced_emit (comparator (props w) nextProps) w eq_refl Hw)
        as Hw'.
      destruct (cmp (props w) nextProps); [done|].
      pose proof (balanced_build build nextProps false _ Hw') as Hb.
      by destruct (_buildStateWithAutoSubscriptions _ _ _ _ _ _) as [[?|?] ?].
    + rewrite buildInitialState_unfold.
      pose proof (balanced_build build (props w) true w Hw) as Hb.
      by destruct (_buildStateWithAutoSubscriptions _ _ _ _ _ _) as [[?|?] ?].
  - done.
  - by apply balanced_unmount.
  - rewrite onAutoSubscriptionChanged_unfold. destruct (_isMounted w); [|done].
    pose proof (balanced_build build (props w) false w Hw) as Hb.
    destruct (_buildStateWithAutoSubscriptions _ _ _ _ _ _) as [[s|?] ?]; [|done].
    simpl in *. destruct (nonempty s); [|done]. by apply balanced_emit.
  - done.
Qed.

Lemma balanced_constructor (p : Props) : balanced (@constructor Props Value p).
Proof.
  split; [apply NoDup_nil_2|]. split; [apply Forall_nil_2|]. done.
Qed.

Lemma balanced_lifecycle (evs : list (@Lifecycle Props Value T)) w :
  balanced w → balanced (lifecycle Key_All cmp instr evs w).
Proof.
  revert w. induction evs as [|ev evs IH]; intros w Hw; [done|].
  change (lifecycle Key_All cmp instr (ev :: evs) w)
    with (lifecycle Key_All cmp instr evs (step Key_All cmp instr w ev)).
  by apply IH, balanced_step.
Qed.

(** X1 (balanced store calls).  After any sequence of lifecycle events on a
    constructed component, builds that throw included, the registry holds no
    subscription twice, and the store calls made so far are these: for a
    subscription of the registry, one [trackAutoSubscription] on its store
    and no removal; for a subscription object that left the registry, one
    [trackAutoSubscription] followed by one [removeAutoSubscription], both
    on its store; for anything else, none. *)
Theorem store_calls_balanced (evs : list (@Lifecycle Props Value T)) (p : Props) r :
  NoDup (_handledAutoSubscriptions (lifecycle Key_All cmp instr evs (constructor p))) ∧
  calls_for r (log (lifecycle Key_All cmp instr evs (constructor p))) =
  match store_at (heap (lifecycle Key_All cmp instr evs (constructor p))) r with
  | Some st =>
      if decide (r ∈ _handledAutoSubscriptions
                       (lifecycle Key_All cmp instr evs (constructor p)))
      then [(true, st)] else [(true, st); (false, st)]
  | None => []
  end.
Proof.
  destruct (balanced_lifecycle evs (constructor p) (balanced_constructor p))
    as (Hnd & _ & Hc).
  split; [exact Hnd|apply Hc].
Qed.

(** ** The index of a store against the registry *)

(** A store's index holds [r] exactly when the last call about [r] that the
    store received registered it. *)
Lemma index_registered st (l : list (@Event Props Value)) r :
  r ∈ store_index st l ↔
  last (filter (λ c, c.2 = st) (calls_for r l)) = Some (true, st).
Proof.
  induction l as [|e l IH] using rev_ind.
  - split; [by intros ?%elem_of_nil|done].
  - unfold store_index. rewrite foldl_snoc. fold (store_index st l).
    rewrite calls_for_app, filter_app, last_app.
    unfold calls_for at 2. csimpl.
    destruct e as [st' r'|st' r'| | | | |]; simpl; try exact IH.
    + destruct (decide (r' = r)) as [->|Hne];
        destruct (decide (st' = st)) as [->|Hst]; simpl.
      * rewrite filter_cons_True by done. simpl. split; [done|]. intros _.
        apply elem_of_app. right. apply list_elem_of_here.
      * rewrite filter_cons_False by (simpl; congruence). exact IH.
      * rewrite elem_of_app, IH. split; [|by left].
        intros [? | ?%list_elem_of_singleton]; [done|congruence].
      * exact IH.
    + destruct (decide (r' = r)) as [->|Hne];
        destruct (decide (st' = st)) as [->|Hst]; simpl.
      * rewrite filter_cons_True by done. simpl. split; [|done].
        by intros [? _]%list_elem_of_filter.
      * rewrite filter_cons_False by (simpl; congruence). exact IH.
      * rewrite list_elem_of_filter, IH. split; [by intros [_ ?]|].
        intros ?. split; [congruence|done].
      * exact IH.
Qed.

(** X2 (index in step with the registry).  For a store that keeps the
    handles given to [trackAutoSubscription] and drops those given to
    [removeAutoSubscription], the index holds, after any sequence of
    lifecycle events on a constructed component, exactly the subscriptions
    of the registry whose store it is. *)
Theorem index_is_registry (evs : list (@Lifecycle Props Value T)) (p : Props) st r :
  r ∈ store_index st (log (lifecycle Key_All cmp instr evs (constructor p))) ↔
  r ∈ _handledAutoSubscriptions (lifecycle Key_All cmp instr evs (constructor p)) ∧
  store_at (heap (lifecycle Key_All cmp instr evs (constructor p))) r = Some st.
Proof.
  destruct (balanced_lifecycle evs (constructor p) (balanced_constructor p))
    as (_ & _ & Hc).
  rewrite index_registered, Hc.
  destruct (store_at _ r) as [s|]; [|by split; [|intros [_ ?]]].
  destruct (decide (r ∈ _)) as [Hin|Hout]; destruct (decide (s = st)) as [->|Hne].
  - rewrite filter_cons_True by done. done.
  - rewrite filter_cons_False by done. split; [done|]. intros [_ ?]. congruence.
  - rewrite filter_cons_True by done. rewrite filter_cons_True by done.
    split; [done|]. by intros [? _].
  - rewrite filter_cons_False by done. rewrite filter_cons_False by done.
    split; [done|]. by intros [? _].
Qed.

(** ** Subscription objects over a lifetime *)

Lemma build_static build p ib w :
  static <$> heap w `prefix_of`
  static <$> heap (_buildStateWithAutoSubscriptions Key_All instr build p ib w).2.
Proof.
  rewrite build_unfold. pose proof (after_reads_static build p ib w) as Hs.
  destruct (finish (build p ib)); simpl; [|done].
  by destruct (sweep_frame (instrument instr endBuildState
                 (after_reads Key_All instr build p ib w)))
    as (es & kept & -> & _); rewrite instrument_emits.
Qed.

Lemma step_static (ev : @Lifecycle Props Value T) w :
  static <$> heap w `prefix_of` static <$> heap (step Key_All cmp instr w ev).
Proof.
  destruct ev as [build nextProps| | |build|p]; unfold step.
  - rewrite getDerivedStateFromProps_unfold. destruct (_isMounted w).
    + rewrite handleUpdate_unfold. destruct (cmp (props w) nextProps); [done|].
      pose proof (build_static build nextProps false
                    (emit (comparator (props w) nextProps) w)) as Hb.
      by destruct (_buildStateWithAutoSubscriptions _ _ _ _ _ _) as [[?|?] ?].
    + rewrite buildInitialState_unfold.
      pose proof (build_static build (props w) true w) as Hb.
      by destruct (_buildStateWithAutoSubscriptions _ _ _ _ _ _) as [[?|?] ?].
  - done.
  - unfold componentWillUnmount. rewrite unmount_each. simpl.
    by rewrite reset_static.
  - rewrite onAutoSubscriptionChanged_unfold. destruct (_isMounted w); [|done].
    pose proof (build_static build (props w) false w) as Hb.
    destruct (_buildStateWithAutoSubscriptions _ _ _ _ _ _) as [[s|?] ?]; [|done].
    simpl in *. by destruct (nonempty s).
  - done.
Qed.

(** X3 (subscription objects persist).  Whatever lifecycle events follow,
    in any instance, a subscription object stays where it is in the heap
    with the store, key and callback it was created with: only its [used]
    flag is ever assigned, and objects are only added. *)
Theorem objects_persist (evs : list (@Lifecycle Props Value T)) w :
  static <$> heap w `prefix_of`
    static <$> heap (lifecycle Key_All cmp instr evs w) ∧
  ∀ r sub, heap w !! r = Some sub →
    ∃ sub', heap (lifecycle Key_All cmp instr evs w) !! r = Some sub' ∧
            store sub' = store sub ∧ key sub' = key sub ∧
            callback sub' = callback sub.
Proof.
  assert (static <$> heap w `prefix_of`
          static <$> heap (lifecycle Key_All cmp instr evs w)) as Hp.
  { revert w. induction evs as [|ev evs IH]; intros w; [done|].
    change (lifecycle Key_All cmp instr (ev :: evs) w)
      with (lifecycle Key_All cmp instr evs (step Key_All cmp instr w ev)).
    etrans; [apply step_static|apply IH]. }
  split; [exact Hp|]. intros r sub Hsub.
  destruct (static_lookup _ _ _ _ Hp Hsub) as (sub' & Hsub' & Hs).
  exists sub'. split; [done|]. destruct sub, sub'. unfold static in Hs.
  by simplify_eq/=.
Qed.

(** ** Reads that repeat *)

Lemma alter_used h r :
  is_used h r = true → alter (set_used true) r h = h.
Proof.
  unfold is_used. intros Hu. apply list_eq. intros i.
  destruct (decide (i = r)) as [->|Hne].
  - rewrite list_lookup_alter_eq. destruct (h !! r) as [sub|]; [|done].
    simpl in *. destruct sub. simpl in *. by subst.
  - by rewrite list_lookup_alter_ne.
Qed.

Lemma handle_repeat w rd r :
  first_match Key_All w rd = Some r → is_used (heap w) r = true →
  handle Key_All w rd = w.
Proof.
  intros Hm Hu. rewrite (handle_found _ _ _ Hm), (alter_used _ _ Hu).
  by destruct w.
Qed.

Lemma first_match_storeId w (rd rd' : StoreBase * string) :
  storeId rd'.1 = storeId rd.1 → rd'.2 = rd.2 →
  first_match Key_All w rd' = first_match Key_All w rd.
Proof.
  intros Hs Hk. unfold first_match, _findMatchingAutoSubscription.
  apply utils_find_ext. intros r _. unfold matching_ref, matching.
  by rewrite Hs, Hk.
Qed.

Lemma handle_reads_repeat w rs1 rd rd' rs2 :
  valid w → rd' ∈ rs1 → storeId rd'.1 = storeId rd.1 → rd'.2 = rd.2 →
  foldl (handle Key_All) w (rs1 ++ rd :: rs2) =
  foldl (handle Key_All) w (rs1 ++ rs2).
Proof.
  intros Hv Hin Hs Hk. rewrite !foldl_app. simpl.
  destruct (handle_reads_used w rs1 Hv) as [Hsome Hused].
  destruct (Hsome rd' Hin) as [r Hr].
  rewrite (handle_repeat _ rd r); [done| |].
  - by rewrite <- (first_match_storeId _ rd rd').
  - apply Hused. right. by exists rd'.
Qed.

(** X4 (a repeated read changes nothing).  A read of a key on a store id
    that the same build has read before, with the same key, is handled
    without any effect: the build that makes it and the build that leaves
    it out return the same result and leave the same instance, store calls
    included. *)
Theorem repeated_read build1 build2 p ib w rs1 rd rd' rs2 :
  valid w →
  reads (build1 p ib) = rs1 ++ rd :: rs2 →
  reads (build2 p ib) = rs1 ++ rs2 →
  finish (build1 p ib) = finish (build2 p ib) →
  rd' ∈ rs1 → storeId rd'.1 = storeId rd.1 → rd'.2 = rd.2 →
  _buildStateWithAutoSubscriptions Key_All instr build1 p ib w =
    _buildStateWithAutoSubscriptions Key_All instr build2 p ib w.
Proof.
  intros Hv H1 H2 Hfin Hin Hs Hk.
  rewrite !build_unfold. unfold after_reads. rewrite H1, H2, Hfin.
  by rewrite (handle_reads_repeat _ rs1 rd rd' rs2)
    by eauto using valid_before_reads.
Qed.

(** ** The size of the registry *)

Lemma NoDup_omap_inv {A B} (f : A → option B) (xs : list A) :
  (∀ x, x ∈ xs → is_Some (f x)) → NoDup (omap f xs) → NoDup xs.
Proof.
  induction xs as [|x xs IH]; intros Hsome Hnd; [constructor|].
  destruct (Hsome x) as [y Hy]; [apply list_elem_of_here|].
  csimpl in Hnd. rewrite Hy in Hnd. simpl in Hnd.
  apply NoDup_cons in Hnd as [Hy' Hnd]. apply NoDup_cons. split.
  - intros Hx. apply Hy'. apply list_elem_of_omap. by exists x.
  - apply IH; [|done]. intros x' Hx'. apply Hsome. by apply list_elem_of_further.
Qed.

Lemma wf_NoDup w : wf w → NoDup (_handledAutoSubscriptions w).
Proof.
  intros [Hv Hnd]. eapply NoDup_omap_inv; [|exact Hnd].
  intros r Hr. simpl. apply fmap_is_Some, lookup_lt_is_Some.
  unfold valid in Hv. rewrite Forall_forall in Hv. by apply Hv.
Qed.

Lemma omap_length_le {A B} (f : A → option B) (xs : list A) :
  length (omap f xs) ≤ length xs.
Proof.
  induction xs as [|x xs IH]; [done|]. csimpl.
  destruct (f x); simpl; lia.
Qed.

(** X5 (the registry is no larger than the reads).  After a completed
    build from a well-formed instance the registry holds at most as many
    subscriptions as the build made reads, whatever it held before. *)
Theorem registry_bounded build p ib w state w' :
  wf w →
  _buildStateWithAutoSubscriptions Key_All instr build p ib w = (Normal state, w') →
  length (_handledAutoSubscriptions w') ≤ length (reads (build p ib)).
Proof.
  intros Hwf Hb.
  assert (wf w') as Hwf' by (pose proof (wf_build build p ib w Hwf) as H';
                             by rewrite Hb in H').
  etrans; [|apply (omap_length_le (first_match Key_All w'))].
  apply submseteq_length, NoDup_submseteq; [by apply wf_NoDup|].
  intros r Hr. destruct (build_all_used _ _ _ _ _ _ _ Hwf Hb Hr) as (_ & rd & Hrd & Hm).
  apply list_elem_of_omap. by exists rd.
Qed.

(** X6 (a subscription that is read again is kept as it is).  When a
    completed build makes a read whose first match in the registry, as the
    build finds it, is the subscription [r], then [r] is still in the
    registry after the build, marked used, and the build made no store call
    about it: it was neither removed nor registered again. *)
Theorem subscription_reused build p ib w state w' rd r :
  wf w →
  _buildStateWithAutoSubscriptions Key_All instr build p ib w = (Normal state, w') →
  rd ∈ reads (build p ib) → first_match Key_All w rd = Some r →
  r ∈ _handledAutoSubscriptions w' ∧ is_used (heap w') r = true ∧
  calls_for r (log w') = calls_for r (log w).
Proof.
  intros Hwf Hb Hrd Hm. pose proof Hwf as [Hv _].
  rewrite (build_completed _ _ _ _ state Hwf) in Hb
    by (rewrite build_unfold in Hb; by destruct (finish (build p ib)); simplify_eq).
  pose proof (first_match_after_reads build p ib w rd r Hv Hm) as Hm'.
  assert (is_used (heap (after_reads Key_All instr build p ib w)) r = true) as Hu.
  { apply after_reads_flags; [done|]. right. by exists rd. }
  destruct (after_reads_registry build p ib w) as (news & HR & Hnews & Hlog).
  pose proof (wf_NoDup _ (wf_after_reads build p ib w Hwf)) as Hnd.
  destruct (first_match_elem_of _ _ _ Hm) as [Hr _].
  assert (r ∉ news) as Hfresh.
  { intros Hin. rewrite Forall_forall in Hnews. apply Hnews in Hin.
    pose proof (valid_lt _ _ Hv Hr). lia. }
  simplify_eq/=. split_and!.
  - apply list_elem_of_filter. split; [done|]. rewrite HR. apply elem_of_app. by left.
  - done.
  - rewrite Hlog. rewrite !calls_for_app.
    rewrite !calls_for_instrumented by done.
    change (calls_for r (buildState p ib :: ?l)) with (calls_for r l).
    rewrite calls_for_tracks by (rewrite HR in Hnd; by apply NoDup_app in Hnd as (_ & _ & ?)).
    rewrite decide_False by done.
    unfold swept. rewrite calls_for_removes by by apply NoDup_filter.
    rewrite decide_False; [by rewrite !app_nil_r|].
    intros [Hf _]%list_elem_of_filter. congruence.
Qed.

(** X7 (a fault is repaired by the next completed build).  When a build
    throws and a later build on the same instance completes, the registry
    after it holds only subscriptions that are the first match of one of
    its reads, and every subscription the faulted build left in the
    registry that none of its reads matches has been removed from the
    registry with a [removeAutoSubscription] call on its store. *)
Theorem fault_repaired build1 p1 ib1 build2 p2 ib2 w e w1 state w2 :
  wf w →
  _buildStateWithAutoSubscriptions Key_All instr build1 p1 ib1 w = (Throw e, w1) →
  _buildStateWithAutoSubscriptions Key_All instr build2 p2 ib2 w1 = (Normal state, w2) →
  (∀ r, r ∈ _handledAutoSubscriptions w2 →
        ∃ rd, rd ∈ reads (build2 p2 ib2) ∧ first_match Key_All w2 rd = Some r) ∧
  (∀ r sub, r ∈ _handledAutoSubscriptions w1 → heap w1 !! r = Some sub →
            (∀ st k, (st, k) ∈ reads (build2 p2 ib2) →
                     matching Key_All st k sub = false) →
            (r ∉ _handledAutoSubscriptions w2) ∧
            ∃ es, log w2 = log w1 ++ es ∧ removeAutoSubscription (store sub) r ∈ es).
Proof.
  intros Hwf H1 H2.
  assert (wf w1) as Hwf1 by (pose proof (wf_build build1 p1 ib1 w Hwf) as H';
                             by rewrite H1 in H').
  split.
  - intros r Hr. by destruct (build_all_used _ _ _ _ _ _ _ Hwf1 H2 Hr) as (_ & ?).
  - intros r sub Hr Hsub Hno.
    by destruct (build_sweeps _ _ _ _ _ _ _ _ Hwf1 H2 Hr Hsub Hno) as (? & ? & _).
Qed.

(** ** Before the component is mounted *)

Lemma unmounted_lifecycle (evs : list (@Lifecycle Props Value T)) w :
  _isMounted w = false → forallb not_mount evs = true →
  _isMounted (lifecycle Key_All cmp instr evs w) = false.
Proof.
  revert w. induction evs as [|ev evs IH]; intros w Hm Hevs; [done|].
  simpl in Hevs. apply andb_true_iff in Hevs as [Hev Hevs].
  change (lifecycle Key_All cmp instr (ev :: evs) w)
    with (lifecycle Key_All cmp instr evs (step Key_All cmp instr w ev)).
  apply IH; [|done]. destruct (step_log ev w) as (_ & _ & _ & ->).
  by destruct ev.
Qed.

(** X8 (notifications before mounting are dropped).  As long as
    [componentDidMount] has not been called on an unmounted instance,
    whatever else happened to it, initial builds that subscribed to stores
    included, [isComponentMounted] answers false and a store notification
    returns at once: no build, no [setState], the instance unchanged. *)
Theorem notification_before_mount (evs : list (@Lifecycle Props Value T)) build w :
  _isMounted w = false → forallb not_mount evs = true →
  isComponentMounted (lifecycle Key_All cmp instr evs w) = false ∧
  _onAutoSubscriptionChanged Key_All instr build (lifecycle Key_All cmp instr evs w) =
    (Normal tt, lifecycle Key_All cmp instr evs w) ∧
  lifecycle Key_All cmp instr (evs ++ [StoreNotification build]) w =
    lifecycle Key_All cmp instr evs w.
Proof.
  intros Hm Hevs. pose proof (unmounted_lifecycle evs w Hm Hevs) as Hm'.
  split_and!; [done|by apply unmounted_callback|].
  unfold lifecycle. rewrite foldl_app. simpl.
  fold (lifecycle Key_All cmp instr evs w).
  by rewrite unmounted_callback.
Qed.

(** ** Exceptions of [getDerivedStateFromProps] *)

(** X9 (when [getDerivedStateFromProps] throws).  Without a previous state,
    or with one whose [_getInstance] yields no instance, it throws the
    error "couldn't get instance of Component" and touches nothing.  With an
    instance it throws exactly when the build function it runs throws, and
    then the same exception: on an unmounted instance the initial build, on
    a mounted one the rebuild for the new props, which runs only if the
    comparator reports a change. *)
Theorem derived_state_throws build nextProps prevState w :
  (prevState ≠ Some (Some tt) →
   getDerivedStateFromProps Key_All cmp instr build nextProps prevState w =
     (Throw (Error "couldn't get instance of Component"), w)) ∧
  ∀ e, (getDerivedStateFromProps Key_All cmp instr build nextProps (Some (Some tt)) w).1 =
         Throw e ↔
       if _isMounted w
       then cmp (props w) nextProps = false ∧ finish (build nextProps false) = Throw e
       else finish (build (props w) true) = Throw e.
Proof.
  split.
  - by destruct prevState as [[[]|]|].
  - intros e. rewrite getDerivedStateFromProps_unfold. destruct (_isMounted w).
    + rewrite handleUpdate_unfold. destruct (cmp (props w) nextProps).
      { simpl. split; [done|]. by intros [? _]. }
      rewrite build_unfold. destruct (finish (build nextProps false)); simpl.
      * split; [done|]. by intros [_ ?].
      * split; [by intros [= ->]|]. by intros [_ [= ->]].
    + rewrite buildInitialState_unfold, build_unfold.
      destruct (finish (build (props w) true)); simpl; [done|].
      split; by intros [= ->].
Qed.

(** ** The render method *)


(** ** Flags outside the registry *)

Lemma used_registered_build build p ib w :
  wf w → (∀ r, is_used (heap w) r = true → r ∈ _handledAutoSubscriptions w) →
  ∀ r, is_used (heap (_buildStateWithAutoSubscriptions Key_All instr build p ib w).2) r
         = true →
       r ∈ _handledAutoSubscriptions
             (_buildStateWithAutoSubscriptions Key_All instr build p ib w).2.
Proof.
  intros Hwf HJ r. pose proof Hwf as [Hv _].
  assert (is_used (heap (after_reads Key_All instr build p ib w)) r = true →
          r ∈ _handledAutoSubscriptions (after_reads Key_All instr build p ib w))
    as Har.
  { intros [[Hout Hu] | (rd & _ & Hm)]%after_reads_flags; [| |done].
    - by apply HJ in Hu.
    - by apply first_match_elem_of in Hm as [? _]. }
  destruct (finish (build p ib)) as [state|e] eqn:Hfin.
  - rewrite (build_completed _ _ _ _ state Hwf Hfin). simpl. intros Hu.
    apply list_elem_of_filter. split; [done|by apply Har].
  - by rewrite (build_throws _ _ _ _ e Hfin).
Qed.

Lemma used_registered_step (ev : @Lifecycle Props Value T) w :
  wf w → (∀ r, is_used (heap w) r = true → r ∈ _handledAutoSubscriptions w) →
  ∀ r, is_used (heap (step Key_All cmp instr w ev)) r = true →
       r ∈ _handledAutoSubscriptions (step Key_All cmp instr w ev).
Proof.
  intros Hwf HJ r. destruct ev as [build nextProps| | |build|p]; unfold step.
  - rewrite getDerivedStateFromProps_unfold. destruct (_isMounted w).
    + rewrite handleUpdate_unfold. destruct (cmp (props w) nextProps); [apply HJ|].
      pose proof (used_registered_build build nextProps false
                    (emit (comparator (props w) nextProps) w)
                    (wf_emit _ _ Hwf) HJ r) as Hb.
      by destruct (_buildStateWithAutoSubscriptions _ _ _ _ _ _) as [[?|?] ?].
    + rewrite buildInitialState_unfold.
      pose proof (used_registered_build build (props w) true w Hwf HJ r) as Hb.
      by destruct (_buildStateWithAutoSubscriptions _ _ _ _ _ _) as [[?|?] ?].
  - apply HJ.
  - unfold componentWillUnmount. rewrite unmount_each. simpl. intros Hu.
    destruct (decide (r ∈ _handledAutoSubscriptions w)) as [Hin|Hout].
    + by rewrite reset_is_used in Hu.
    + unfold is_used in Hu. rewrite reset_lookup_ne in Hu by done.
      by apply HJ in Hu.
  - rewrite onAutoSubscriptionChanged_unfold. destruct (_isMounted w); [|apply HJ].
    pose proof (used_registered_build build (props w) false w Hwf HJ r) as Hb.
    destruct (_buildStateWithAutoSubscriptions _ _ _ _ _ _) as [[s|?] ?]; [|done].
    simpl in *. by destruct (nonempty s).
  - apply HJ.
Qed.

(** X11 (only registered subscriptions are marked used).  After any
    sequence of lifecycle events on a constructed component, builds that
    throw included, a subscription object whose [used] flag is set is in
    the registry: what the sweep or the teardown handed to
    [removeAutoSubscription] stays unused for good. *)
Theorem used_is_registered (evs : list (@Lifecycle Props Value T)) (p : Props) r :
  is_used (heap (lifecycle Key_All cmp instr evs (constructor p))) r = true →
  r ∈ _handledAutoSubscriptions (lifecycle Key_All cmp instr evs (constructor p)).
Proof.
  assert (∀ w, wf w →
            (∀ r, is_used (heap w) r = true → r ∈ _handledAutoSubscriptions w) →
            ∀ r, is_used (heap (lifecycle Key_All cmp instr evs w)) r = true →
                 r ∈ _handledAutoSubscriptions (lifecycle Key_All cmp instr evs w))
    as Hall.
  { induction evs as [|ev evs IH]; intros w Hwf HJ; [done|].
    change (lifecycle Key_All cmp instr (ev :: evs) w)
      with (lifecycle Key_All cmp instr evs (step Key_All cmp instr w ev)).
    apply IH; [by apply wf_step|by apply used_registered_step]. }
  apply Hall; [apply wf_constructor|]. intros r'. unfold is_used. simpl.
  by destruct r'.
Qed.

(** ** Teardown and notification *)

(** X12 (teardown twice).  A second [componentWillUnmount] finds the
    registry empty: it calls no store and leaves the instance as the first
    one left it. *)
Theorem unmount_twice w :
  componentWillUnmount (componentWillUnmount w) = componentWillUnmount w.
Proof. done. Qed.

(** X13 (a notification sets the state last).  On a mounted component
    whose build completes with a state that has a key, the store
    notification returns normally and its events are, in order: the build
    of the current props as a rebuild, store calls and instrumentation
    hooks, and then one [setState] with the built state, after the sweep. *)
Theorem notification_sets_state build w s :
  _isMounted w = true →
  finish (build (props w) false) = Normal (Some s) → s ≠ [] →
  (_onAutoSubscriptionChanged Key_All instr build w).1 = Normal tt ∧
  ∃ es, log (_onAutoSubscriptionChanged Key_All instr build w).2 =
          log w ++ instrumented instr beginBuildState ++
          [buildState (props w) false] ++ es ++ [setState s] ∧
        Forall (λ e, is_bookkeeping e = true) es.
Proof.
  intros Hm Hfin Hs.
  destruct (build_frame build (props w) false w) as (es & Hlog & Hes & _).
  rewrite onAutoSubscriptionChanged_unfold, Hm.
  rewrite build_unfold, Hfin in *. simpl in *.
  destruct s as [|kv s]; [done|]. simpl. split; [done|].
  exists es. split; [|done]. rewrite Hlog. by rewrite <- !app_assoc.
Qed.

(** ** What a build is given, and the order of its calls *)

(** X14 (the initial build ignores the next props).  On an unmounted
    instance [getDerivedStateFromProps] does not look at [nextProps]: it
    returns the same, and leaves the same instance, for any two values, and
    the build function is invoked with the props of the instance and
    [initialBuild = true]. *)
Theorem initial_build_props build nextProps nextProps' w :
  _isMounted w = false →
  getDerivedStateFromProps Key_All cmp instr build nextProps (Some (Some tt)) w =
    getDerivedStateFromProps Key_All cmp instr build nextProps' (Some (Some tt)) w ∧
  ∃ es,
    log (getDerivedStateFromProps Key_All cmp instr build nextProps (Some (Some tt)) w).2 =
      log w ++ instrumented instr beginBuildState ++ [buildState (props w) true] ++ es ∧
    Forall (λ e, is_bookkeeping e = true) es.
Proof.
  intros Hm. rewrite !getDerivedStateFromProps_unfold, Hm. split; [done|].
  rewrite buildInitialState_unfold.
  destruct (build_frame build (props w) true w) as (es & Hlog & Hes & _).
  exists es. split; [|done].
  by destruct (_buildStateWithAutoSubscriptions _ _ _ _ _ _) as [[?|?] ?].
Qed.

Lemma filter_unused h (xs : list nat) :
  filter (λ r, is_used h r = false) xs = filter (λ r, ¬ is_used h r = true) xs.
Proof.
  induction xs as [|x xs IH]; [done|]. rewrite !filter_cons, IH.
  destruct (is_used h x) eqn:Hu.
  - rewrite decide_False by done. by rewrite decide_False by (intros Hn; by apply Hn).
  - rewrite decide_True by done. by rewrite decide_True by done.
Qed.

(** X15 (the order of the calls of a build).  The events of a completed
    build are, in order: the begin hook, the invocation of the build
    function, one [trackAutoSubscription] per subscription created, in
    creation order, the end hook, and one [removeAutoSubscription] per
    subscription swept, in registry order; so every registration of a build
    precedes every removal.  The registry afterwards and the subscriptions
    swept make up the registry before and the subscriptions created, the
    survivors in their old order with the new ones behind them. *)
Theorem build_trace build p ib w state w' :
  wf w →
  _buildStateWithAutoSubscriptions Key_All instr build p ib w = (Normal state, w') →
  ∃ news gone,
    log w' = log w ++ instrumented instr beginBuildState ++ [buildState p ib] ++
             omap (track_at (heap w')) news ++
             instrumented instr endBuildState ++ omap (remove_at (heap w')) gone ∧
    _handledAutoSubscriptions w' ++ gone ≡ₚ _handledAutoSubscriptions w ++ news ∧
    _handledAutoSubscriptions w' `sublist_of` _handledAutoSubscriptions w ++ news ∧
    gone `sublist_of` _handledAutoSubscriptions w ++ news ∧
    Forall (λ r, length (heap w) ≤ r < length (heap w')) news ∧
    Forall (λ r, is_used (heap w') r = false) gone.
Proof.
  intros Hwf Hb.
  rewrite (build_completed _ _ _ _ state Hwf) in Hb
    by (rewrite build_unfold in Hb; by destruct (finish (build p ib)); simplify_eq).
  destruct (after_reads_registry build p ib w) as (news & HR & Hnews & Hlog).
  exists news,
    (filter (λ r, is_used (heap (after_reads Key_All instr build p ib w)) r = false)
       (_handledAutoSubscriptions w ++ news)).
  injection Hb as <-. simpl. rewrite HR, Hlog. split_and!.
  - unfold swept. by rewrite <- !app_assoc.
  - rewrite filter_unused. apply filter_app_complement.
  - apply sublist_filter.
  - apply sublist_filter.
  - done.
  - apply Forall_forall. by intros r [? _]%list_elem_of_filter.
Qed.

End Properties.

(** * Worked instances *)

Lemma wf_fresh : wf fresh.
Proof. apply wf_constructor. Qed.

Lemma wf_built rs w : wf w → wf (built rs w).
Proof. apply (wf_build (T := unit)). Qed.




Lemma idempotent_witness :
  wf fresh ∧
  _buildStateWithAutoSubscriptions sample_Key_All false (reading sample_reads) 0 false
    fresh = (Normal (Some [("value", 1)]), built sample_reads fresh) ∧
  reads (silent sample_reads 1 false) = reads (reading sample_reads 0 false) ∧
  finish (silent sample_reads 1 false) = Normal (Some []) ∧
  ∃ w2,
    _buildStateWithAutoSubscriptions sample_Key_All false (silent sample_reads) 1 false
      (built sample_reads fresh) = (Normal (Some []), w2) ∧
    heap w2 = heap (built sample_reads fresh) ∧
    _handledAutoSubscriptions w2 = _handledAutoSubscriptions (built sample_reads fresh) ∧
    pairs w2 = pairs (built sample_reads fresh) ∧
    log w2 = log (built sample_reads fresh) ++
             instrumented false beginBuildState ++ [buildState 1 false] ++
             instrumented false endBuildState.
Proof.
  assert (_buildStateWithAutoSubscriptions sample_Key_All false
            (reading sample_reads) 0 false fresh =
          (Normal (Some [("value", 1)]), built sample_reads fresh)) as Hb
    by reflexivity.
  split; [exact wf_fresh|]. split; [exact Hb|].
  split; [reflexivity|]. split; [reflexivity|].
  exact (idempotent sample_Key_All false (reading sample_reads) 0 false
           (silent sample_reads) 1 false fresh _ _ (Some [])
           wf_fresh Hb eq_refl eq_refl).
Defined.



Lemma update_skipped_witness :
  always_equal (props (componentDidMount (built sample_reads fresh))) 1 = true ∧
  _handleUpdate sample_Key_All always_equal false (reading [(storeB, "z")]) 1
    (componentDidMount (built sample_reads fresh)) =
  (Normal None, emit (comparator 0 1) (componentDidMount (built sample_reads fresh))) ∧
  _handledAutoSubscriptions
    (lifecycle sample_Key_All always_equal false
       [GetDerivedStateFromProps (reading [(storeB, "z")]) 1; AssignProps 1;
        GetDerivedStateFromProps (reading []) 2]
       (componentDidMount (built sample_reads fresh))) =
  _handledAutoSubscriptions (componentDidMount (built sample_reads fresh)).
Proof.
  destruct (update_skipped sample_Key_All always_equal false
              (reading [(storeB, "z")]) 1
              (componentDidMount (built sample_reads fresh)) eq_refl)
    as [Hskip Hfrozen].
  split; [reflexivity|]. split; [exact Hskip|].
  destruct (Hfrozen (λ _ _, eq_refl) eq_refl
              [GetDerivedStateFromProps (reading [(storeB, "z")]) 1; AssignProps 1;
               GetDerivedStateFromProps (reading []) 2] eq_refl)
    as (_ & HR & _).
  exact HR.
Defined.

Lemma build_fault_witness :
  wf (built [(storeB, "y")] fresh) ∧
  finish (failing [(storeA, "x")] 0 false) = Throw (Thrown tt) ∧
  _buildStateWithAutoSubscriptions sample_Key_All false (failing [(storeA, "x")]) 0
    false (built [(storeB, "y")] fresh) =
  (Throw (Thrown tt),
   after_reads sample_Key_All false (failing [(storeA, "x")]) 0 false
     (built [(storeB, "y")] fresh)) ∧
  _handledAutoSubscriptions
    (after_reads sample_Key_All false (failing [(storeA, "x")]) 0 false
       (built [(storeB, "y")] fresh)) = [0; 1].
Proof.
  assert (wf (built [(storeB, "y")] fresh)) as Hw by apply wf_built, wf_fresh.
  split; [exact Hw|]. split; [reflexivity|].
  split; [|reflexivity].
  exact (proj1 (build_fault sample_Key_All sample_comparator false
                  (failing [(storeA, "x")]) 0 false _ _ Hw eq_refl)).
Defined.

Lemma initial_build_counterexample :
  ¬ built_once sample_Key_All sample_comparator false
      [GetDerivedStateFromProps (reading [(storeA, "x")]) 0;
       GetDerivedStateFromProps (reading [(storeA, "x")]) 0] 0.
Proof. unfold built_once. vm_compute. lia. Qed.

Lemma Key_All_after_specific_witness :
  wf fresh ∧
  _buildStateWithAutoSubscriptions sample_Key_All false
    (reading [(storeA, "x"); (storeA, sample_Key_All)]) 0 false fresh =
    (Normal (Some [("value", 1)]),
     built [(storeA, "x"); (storeA, sample_Key_All)] fresh) ∧
  "x" ≠ sample_Key_All ∧
  ((storeId storeA, sample_Key_All) ∉ pairs fresh) ∧
  ∃ r1,
    r1 ∈ _handledAutoSubscriptions
           (built [(storeA, "x"); (storeA, sample_Key_All)] fresh) ∧
    trackAutoSubscription storeA 1 ∈
      log (built [(storeA, "x"); (storeA, sample_Key_All)] fresh).
Proof.
  assert (_buildStateWithAutoSubscriptions sample_Key_All false
            (reading [(storeA, "x"); (storeA, sample_Key_All)]) 0 false fresh =
          (Normal (Some [("value", 1)]),
           built [(storeA, "x"); (storeA, sample_Key_All)] fresh)) as Hb
    by reflexivity.
  assert ("x" ≠ sample_Key_All) as Hk by discriminate.
  assert ((storeId storeA, sample_Key_All) ∉ pairs fresh) as Hno
    by apply not_elem_of_nil.
  split; [exact wf_fresh|]. split; [exact Hb|]. split; [exact Hk|].
  split; [exact Hno|].
  destruct (Key_All_after_specific sample_Key_All false _ 0 false fresh _ _
              storeA "x" storeA [] [] [] wf_fresh Hb eq_refl eq_refl Hk Hno)
    as [(wc & r1 & sub1 & -> & _ & _ & _ & _ & _ & _ & Hin & _ & _ & _ & Htrack) _].
  - intros s Hs. by apply elem_of_nil in Hs.
  - exists r1. split; [exact Hin|exact Htrack].
Defined.

Lemma two_subscriptions_counterexample :
  ¬ two_subscriptions sample_Key_All false
      (reading [(storeA, "x"); (storeA, sample_Key_All)]) 0 false
      (built [(storeA, sample_Key_All)] fresh).
Proof.
  intros Hclaim.
  destruct (Hclaim (Some [("value", 1)])
              (built [(storeA, "x"); (storeA, sample_Key_All)]
                 (built [(storeA, sample_Key_All)] fresh))
              storeA "x" storeA [] [] []) as [Hx _]; try reflexivity.
  - discriminate.
  - vm_compute in Hx. apply list_elem_of_singleton in Hx. discriminate.
Qed.

Lemma empty_draft_witness :
  nonempty (Some ([] : list (string * nat))) = false ∧
  (_handleUpdate sample_Key_All sample_comparator false (silent [(storeA, "x")]) 1
     (componentDidMount (built sample_reads fresh))).1 = Normal None.
Proof.
  split; [reflexivity|].
  destruct (empty_draft sample_Key_All sample_comparator false
              (silent [(storeA, "x")])
              (componentDidMount (built sample_reads fresh)) (Some []) eq_refl)
    as (_ & Hupdate & _).
  exact (proj1 (Hupdate 1 eq_refl)).
Defined.

Lemma teardown_witness :
  _handledAutoSubscriptions
    (componentWillUnmount (componentDidMount (built sample_reads fresh))) = [] ∧
  _isMounted
    (componentWillUnmount (componentDidMount (built sample_reads fresh))) = false ∧
  _onAutoSubscriptionChanged sample_Key_All false (reading [(storeB, "z")])
    (componentWillUnmount (componentDidMount (built sample_reads fresh))) =
  (Normal tt, componentWillUnmount (componentDidMount (built sample_reads fresh))).
Proof.
  destruct (teardown (T := unit) sample_Key_All sample_comparator false
              (componentDidMount (built sample_reads fresh)))
    as (_ & _ & _ & _ & HR & Hm & Hcb & _).
  split; [exact HR|]. split; [exact Hm|]. exact (Hcb (reading [(storeB, "z")])).
Defined.

Lemma initial_builds_counted_witness :
  hosted [GetDerivedStateFromProps (reading sample_reads) 0; ComponentDidMount;
          GetDerivedStateFromProps (reading [(storeB, "z")]) 1;
          StoreNotification (reading sample_reads); ComponentWillUnmount;
          StoreNotification (reading sample_reads)] = true ∧
  initial_builds
    (log (lifecycle sample_Key_All sample_comparator false
            [GetDerivedStateFromProps (reading sample_reads) 0; ComponentDidMount;
             GetDerivedStateFromProps (reading [(storeB, "z")]) 1;
             StoreNotification (reading sample_reads); ComponentWillUnmount;
             StoreNotification (reading sample_reads)] fresh)) = 1.
Proof.
  split; [reflexivity|].
  exact (proj1 (initial_builds_counted sample_Key_All sample_comparator false
                  [GetDerivedStateFromProps (reading sample_reads) 0;
                   ComponentDidMount;
                   GetDerivedStateFromProps (reading [(storeB, "z")]) 1;
                   StoreNotification (reading sample_reads); ComponentWillUnmount;
                   StoreNotification (reading sample_reads)] 0)).
Defined.

Lemma repeated_read_witness :
  valid fresh ∧
  _buildStateWithAutoSubscriptions sample_Key_All false
    (reading [(storeA, "x"); (storeB, "y"); (storeA, "x")]) 0 false fresh =
  _buildStateWithAutoSubscriptions sample_Key_All false
    (reading [(storeA, "x"); (storeB, "y")]) 0 false fresh.
Proof.
  split; [exact (proj1 wf_fresh)|].
  apply (repeated_read sample_Key_All false
           (reading [(storeA, "x"); (storeB, "y"); (storeA, "x")])
           (reading [(storeA, "x"); (storeB, "y")]) 0 false fresh
           [(storeA, "x"); (storeB, "y")] (storeA, "x") (storeA, "x") []
           (proj1 wf_fresh) eq_refl eq_refl eq_refl);
    [apply list_elem_of_here|reflexivity|reflexivity].
Defined.

Lemma registry_bounded_witness :
  wf (built [(storeB, "y")] fresh) ∧
  length (_handledAutoSubscriptions
            (built [(storeA, "x")] (built [(storeB, "y")] fresh))) ≤ 1.
Proof.
  assert (wf (built [(storeB, "y")] fresh)) as Hw by apply wf_built, wf_fresh.
  split; [exact Hw|].
  exact (registry_bounded sample_Key_All false (reading [(storeA, "x")]) 0 false
           (built [(storeB, "y")] fresh) _ _ Hw eq_refl).
Defined.

Lemma subscription_reused_witness :
  wf (built [(storeA, "x")] fresh) ∧
  first_match sample_Key_All (built [(storeA, "x")] fresh) (storeA, "x") = Some 0 ∧
  0 ∈ _handledAutoSubscriptions
        (built [(storeA, "x"); (storeB, "y")] (built [(storeA, "x")] fresh)) ∧
  calls_for 0 (log (built [(storeA, "x"); (storeB, "y")] (built [(storeA, "x")] fresh))) =
  calls_for 0 (log (built [(storeA, "x")] fresh)).
Proof.
  assert (wf (built [(storeA, "x")] fresh)) as Hw by apply wf_built, wf_fresh.
  split; [exact Hw|]. split; [reflexivity|].
  destruct (subscription_reused sample_Key_All false
              (reading [(storeA, "x"); (storeB, "y")]) 0 false
              (built [(storeA, "x")] fresh) _ _ (storeA, "x") 0 Hw eq_refl
              (list_elem_of_here _ _) eq_refl) as (Hin & _ & Hcalls).
  split; [exact Hin|exact Hcalls].
Defined.

Lemma fault_repaired_witness :
  wf (built [(storeB, "y")] fresh) ∧
  0 ∈ _handledAutoSubscriptions
        (after_reads sample_Key_All false (failing [(storeA, "x")]) 0 false
           (built [(storeB, "y")] fresh)) ∧
  0 ∉ _handledAutoSubscriptions
        (built [(storeA, "z")]
           (after_reads sample_Key_All false (failing [(storeA, "x")]) 0 false
              (built [(storeB, "y")] fresh))).
Proof.
  assert (wf (built [(storeB, "y")] fresh)) as Hw by apply wf_built, wf_fresh.
  split; [exact Hw|]. split; [apply list_elem_of_here|].
  destruct (fault_repaired sample_Key_All false
              (failing [(storeA, "x")]) 0 false (reading [(storeA, "z")]) 0 false
              (built [(storeB, "y")] fresh) _ _ _ _ Hw eq_refl eq_refl)
    as [_ Hgone].
  refine (proj1 (Hgone 0 {| store := storeB; key := "y";
                            callback := OnAutoSubscriptionChanged; used := false |}
                   (list_elem_of_here _ _) eq_refl _)).
  intros st k Hin. apply list_elem_of_singleton in Hin.
  injection Hin as -> ->. reflexivity.
Defined.

Lemma notification_before_mount_witness :
  isComponentMounted
    (lifecycle sample_Key_All sample_comparator false
       [GetDerivedStateFromProps (reading sample_reads) 0; AssignProps 1] fresh) = false ∧
  _onAutoSubscriptionChanged sample_Key_All false (reading sample_reads)
    (lifecycle sample_Key_All sample_comparator false
       [GetDerivedStateFromProps (reading sample_reads) 0; AssignProps 1] fresh) =
  (Normal tt,
   lifecycle sample_Key_All sample_comparator false
     [GetDerivedStateFromProps (reading sample_reads) 0; AssignProps 1] fresh).
Proof.
  destruct (notification_before_mount sample_Key_All sample_comparator false
              [GetDerivedStateFromProps (reading sample_reads) 0; AssignProps 1]
              (reading sample_reads) fresh eq_refl eq_refl) as (Hm & Hcb & _).
  split; [exact Hm|exact Hcb].
Defined.

Lemma used_is_registered_witness :
  is_used
    (heap (lifecycle sample_Key_All sample_comparator false
             [GetDerivedStateFromProps (reading [(storeA, "x")]) 0] (constructor 0)))
    0 = true ∧
  0 ∈ _handledAutoSubscriptions
        (lifecycle sample_Key_All sample_comparator false
           [GetDerivedStateFromProps (reading [(storeA, "x")]) 0] (constructor 0)).
Proof.
  split; [reflexivity|].
  exact (used_is_registered sample_Key_All sample_comparator false
           [GetDerivedStateFromProps (reading [(storeA, "x")]) 0] 0 0 eq_refl).
Defined.

Lemma notification_sets_state_witness :
  _isMounted (componentDidMount (built [(storeA, "x")] fresh)) = true ∧
  (_onAutoSubscriptionChanged sample_Key_All false (reading [(storeA, "x")])
     (componentDidMount (built [(storeA, "x")] fresh))).1 = Normal tt.
Proof.
  split; [reflexivity|].
  refine (proj1 (notification_sets_state sample_Key_All false
                   (reading [(storeA, "x")])
                   (componentDidMount (built [(storeA, "x")] fresh))
                   [("value", 1)] eq_refl eq_refl _)).
  discriminate.
Defined.

Lemma initial_build_props_witness :
  _isMounted fresh = false ∧
  getDerivedStateFromProps sample_Key_All sample_comparator false
    (reading [(storeA, "x")]) 1 (Some (Some tt)) fresh =
  getDerivedStateFromProps sample_Key_All sample_comparator false
    (reading [(storeA, "x")]) 2 (Some (Some tt)) fresh.
Proof.
  split; [reflexivity|].
  exact (proj1 (initial_build_props sample_Key_All sample_comparator false
                  (reading [(storeA, "x")]) 1 2 fresh eq_refl)).
Defined.

Lemma build_trace_witness :
  wf (built [(storeB, "y")] fresh) ∧
  ∃ news gone,
    _handledAutoSubscriptions (built [(storeA, "x")] (built [(storeB, "y")] fresh))
      ++ gone ≡ₚ
    _handledAutoSubscriptions (built [(storeB, "y")] fresh) ++ news.
Proof.
  assert (wf (built [(storeB, "y")] fresh)) as Hw by apply wf_built, wf_fresh.
  split; [exact Hw|].
  destruct (build_trace sample_Key_All false (reading [(storeA, "x")]) 0 false
              (built [(storeB, "y")] fresh) _ _ Hw eq_refl)
    as (news & gone & _ & Hp & _).
  exists news, gone. exact Hp.
Defined.
